(** * AgentDock "conceptualize" scaffold: envelope, bus, agent runtime, Captain

    A shallow embedding of the four Python source files

    - [conceptualize/packages/comm_protocol/__init__.py]   (class [Envelope])
    - [conceptualize/packages/agent_core/bus.py]           (class [RedisBus])
    - [conceptualize/packages/agent_core/base_agent.py]    (class [BaseAgent])
    - [conceptualize/apps/captain/main.py]                 (class [CaptainAgent])

    together with the fragment of their libraries (pydantic v1, the [json],
    [uuid] and [datetime] modules, Redis streams, the asyncio task runner) that
    the verified properties rest on.

    Conventions.
    - A Python [str] is a [string]; each [ascii] stands for one code point in
      the range 0..255.  Text is processed as [list ascii].
    - Python [int]s are [Z] (or [N] where the value cannot be negative).
    - Floating-point values are outside the model: a JSON number with a
      fraction or an exponent is reported as a decoding error by [Json.loads].
    - A Python [dict] with string keys is an association list in insertion
      order; well-formed dictionaries have pairwise distinct keys. *)

From Stdlib Require Import ZArith NArith Ascii String List Bool Lia.
From stdpp Require Import gmap strings list sorting.

Local Open Scope char_scope.
Local Open Scope N_scope.

(** ** Characters and numerals *)

Module Text.

Definition code (c : ascii) : N := N_of_ascii c.

Definition is_digit (c : ascii) : bool := (48 <=? code c) && (code c <=? 57).

Definition digit_char (d : N) : ascii := ascii_of_N (48 + d).

Definition digit_val (c : ascii) : N := code c - 48.

(** Value of a run of decimal digits, most significant first. *)
Definition dec_value (ds : list ascii) : N :=
  fold_left (fun acc c => 10 * acc + digit_val c) ds 0.

(** [dec_fixed k n]: the last [k] decimal digits of [n], zero padded
    (the ["%0kd"] conversion for [n < 10^k]). *)
Fixpoint dec_fixed (k : nat) (n : N) : list ascii :=
  match k with
  | O => []
  | S k' => dec_fixed k' (n / 10) ++ [digit_char (n mod 10)]
  end.

Fixpoint dec_digits_fuel (fuel : nat) (n : N) : list ascii :=
  match fuel with
  | O => []
  | S f =>
      if n <? 10 then [digit_char n]
      else dec_digits_fuel f (n / 10) ++ [digit_char (n mod 10)]
  end.

(** [str(n)] for a natural number: no leading zero, ["0"] for zero. *)
Definition dec_digits (n : N) : list ascii :=
  dec_digits_fuel (S (N.to_nat (N.log2 n))) n.

(** [str(z)] for a Python int. *)
Definition int_str (z : Z) : list ascii :=
  match z with
  | Zneg p => "-" :: dec_digits (Npos p)
  | _ => dec_digits (Z.to_N z)
  end.

Definition is_hex (c : ascii) : bool :=
  is_digit c
  || ((97 <=? code c) && (code c <=? 102))
  || ((65 <=? code c) && (code c <=? 70)).

Definition hex_char (d : N) : ascii :=
  if d <? 10 then ascii_of_N (48 + d) else ascii_of_N (87 + d).

Definition hex_val (c : ascii) : N :=
  if is_digit c then code c - 48
  else if 97 <=? code c then code c - 87
  else code c - 55.

Definition hex_value (ds : list ascii) : N :=
  fold_left (fun acc c => 16 * acc + hex_val c) ds 0.

(** The ["%0kx"] conversion (lower-case) for [n < 16^k]. *)
Fixpoint hex_fixed (k : nat) (n : N) : list ascii :=
  match k with
  | O => []
  | S k' => hex_fixed k' (n / 16) ++ [hex_char (n mod 16)]
  end.

(** [span p s]: the longest prefix of [s] whose characters satisfy [p],
    and what follows it. *)
Fixpoint span (p : ascii -> bool) (s : list ascii) : list ascii * list ascii :=
  match s with
  | c :: r =>
      if p c then let '(a, b) := span p r in (c :: a, b) else ([], s)
  | [] => ([], [])
  end.

(** [s.replace(pat, "")] for a non-empty pattern: occurrences are removed
    from left to right, without overlap. *)
Fixpoint strip_prefix (pat s : list ascii) : option (list ascii) :=
  match pat, s with
  | [], _ => Some s
  | p :: pat', c :: s' => if Ascii.eqb p c then strip_prefix pat' s' else None
  | _ :: _, [] => None
  end.

Fixpoint remove_all_fuel (fuel : nat) (pat s : list ascii) : list ascii :=
  match fuel with
  | O => s
  | S f =>
      match strip_prefix pat s with
      | Some r => remove_all_fuel f pat r
      | None =>
          match s with
          | [] => []
          | c :: r => c :: remove_all_fuel f pat r
          end
      end
  end.

Definition remove_all (pat s : list ascii) : list ascii :=
  remove_all_fuel (S (length s)) pat s.

Definition drop_while (p : ascii -> bool) (s : list ascii) : list ascii :=
  snd (span p s).

(** [s.strip(chars)] *)
Definition strip (p : ascii -> bool) (s : list ascii) : list ascii :=
  rev (drop_while p (rev (drop_while p s))).

(** The text does not go on with a digit. *)
Definition no_digit_head (s : list ascii) : Prop :=
  match s with
  | c :: _ => is_digit c = false
  | [] => True
  end.

(** The next character must be [c]. *)
Definition expect (c : ascii) (s : list ascii) : option (list ascii) :=
  match s with
  | c' :: r => if Ascii.eqb c c' then Some r else None
  | [] => None
  end.

End Text.

(** ** [uuid.UUID]

    A UUID is its 128-bit integer ([UUID.int]).  [str] is [UUID.__str__];
    [of_str] is the constructor [UUID(hex)] on a string, for the forms made of
    hexadecimal digits (an optional [urn:] / [uuid:] prefix, braces and
    dashes are dropped first, as the constructor does).  The constructor ends
    with [int(hex, 16)], which also admits a sign, surrounding blanks,
    underscores and a [0x] prefix: those forms are not modelled. *)

Module UUID.

Definition valid (u : N) : bool := u <? 2 ^ 128.

Definition str (u : N) : list ascii :=
  let hex := Text.hex_fixed 32 u in
  take 8 hex ++ "-" :: take 4 (drop 8 hex) ++ "-" :: take 4 (drop 12 hex)
    ++ "-" :: take 4 (drop 16 hex) ++ "-" :: drop 20 hex.

Definition is_brace (c : ascii) : bool := Ascii.eqb c "{" || Ascii.eqb c "}".

(** A character that [UUID(...)] keeps. *)
Definition plain (c : ascii) : Prop :=
  Ascii.eqb "u" c = false /\ Ascii.eqb "-" c = false /\ is_brace c = false.

Definition of_str (s : list ascii) : option N :=
  let hex := Text.remove_all ["u";"u";"i";"d";":"] (Text.remove_all ["u";"r";"n";":"] s) in
  let hex := Text.remove_all ["-"] (Text.strip is_brace hex) in
  if (length hex =? 32)%nat && forallb Text.is_hex hex
  then Some (Text.hex_value hex) else None.

End UUID.

(** ** [datetime.datetime]

    A naive datetime has [tzinfo = None]; an aware one carries a fixed offset
    from UTC, in whole minutes (offsets with seconds are not modelled). *)

Module Datetime.

Record t := mk {
  year : N; month : N; day : N;
  hour : N; minute : N; second : N; microsecond : N;
  tzinfo : option Z
}.

Definition is_leap (y : N) : bool :=
  (y mod 4 =? 0) && (negb (y mod 100 =? 0) || (y mod 400 =? 0)).

Definition days_in_month (y m : N) : N :=
  if m =? 2 then (if is_leap y then 29 else 28)
  else if (m =? 4) || (m =? 6) || (m =? 9) || (m =? 11) then 30
  else 31.

Definition valid_offset (o : Z) : bool := (Z.abs o <? 1440)%Z.

(** The range checks of the [datetime(...)] constructor. *)
Definition valid (d : t) : bool :=
  (1 <=? year d) && (year d <=? 9999)
  && (1 <=? month d) && (month d <=? 12)
  && (1 <=? day d) && (day d <=? days_in_month (year d) (month d))
  && (hour d <? 24) && (minute d <? 60) && (second d <? 60)
  && (microsecond d <? 1000000)
  && match tzinfo d with Some o => valid_offset o | None => true end.

Definition format_offset (o : Z) : list ascii :=
  let a := Z.to_N (Z.abs o) in
  (if (o <? 0)%Z then "-" else "+")
    :: Text.dec_fixed 2 (a / 60) ++ ":" :: Text.dec_fixed 2 (a mod 60).

(** [datetime.isoformat()] *)
Definition isoformat (d : t) : list ascii :=
  Text.dec_fixed 4 (year d) ++ "-" :: Text.dec_fixed 2 (month d)
    ++ "-" :: Text.dec_fixed 2 (day d)
    ++ "T" :: Text.dec_fixed 2 (hour d) ++ ":" :: Text.dec_fixed 2 (minute d)
    ++ ":" :: Text.dec_fixed 2 (second d)
    ++ (if microsecond d =? 0 then [] else "." :: Text.dec_fixed 6 (microsecond d))
    ++ match tzinfo d with Some o => format_offset o | None => [] end.

(** Up to [k] leading digits, greedily (the regular expression [\d{0,k}]). *)
Fixpoint digits_upto (k : nat) (s : list ascii) : list ascii * list ascii :=
  match k, s with
  | S k', c :: r =>
      if Text.is_digit c
      then let '(a, b) := digits_upto k' r in (c :: a, b)
      else ([], s)
  | _, _ => ([], s)
  end.

(** [\d{1,k}] followed by the rest of the pattern *)
Definition digits_1 (k : nat) (s : list ascii) : option (N * list ascii) :=
  match digits_upto k s with
  | ([], _) => None
  | (ds, r) => Some (Text.dec_value ds, r)
  end.

(** [\d{k}] *)
Definition digits_n (k : nat) (s : list ascii) : option (N * list ascii) :=
  let '(ds, r) := digits_upto k s in
  if (length ds =? k)%nat then Some (Text.dec_value ds, r) else None.

(** [ljust(6, '0')] on the microsecond digits, then [int]. *)
Definition micro_value (ds : list ascii) : N :=
  Text.dec_value (take 6 (ds ++ ["0";"0";"0";"0";"0";"0"])).

(** The optional group [(?:\.(\d{1,6})\d{0,6})?] *)
Definition parse_fraction (s : list ascii) : option (N * list ascii) :=
  match s with
  | "." :: r =>
      match digits_upto 12 r with
      | ([], _) => None
      | (ds, r') => Some (micro_value (take 6 ds), r')
      end
  | _ => Some (0, s)
  end.

(** The optional group [(?::(\d{1,2})(?:\.(\d{1,6})\d{0,6})?)?] *)
Definition parse_seconds (s : list ascii) : option (N * N * list ascii) :=
  match s with
  | ":" :: r =>
      '(sec, r1) ← digits_1 2 r;
      '(us, r2) ← parse_fraction r1;
      Some (sec, us, r2)
  | _ => Some (0, 0, s)
  end.

(** The regular expression's final [$]: the end of the text, or just before
    a newline that ends it. *)
Definition at_end (s : list ascii) : bool :=
  match s with
  | [] => true
  | [c] => Ascii.eqb c "010"
  | _ => false
  end.

(** The group [(Z|[+-]\d{2}(?::?\d{2})?)?$] and [_parse_timezone]: the
    offset in minutes; [timezone(timedelta(minutes=offset))] rejects offsets
    of a day or more. *)
Definition parse_offset (neg : bool) (r : list ascii) : option (option Z) :=
  '(hh, r1) ← digits_n 2 r;
  '(mm, r2) ← (if at_end r1 then Some (0, r1)
               else match r1 with
                    | ":" :: r1' => digits_n 2 r1'
                    | _ => digits_n 2 r1
                    end);
  let o := Z.of_N (60 * hh + mm) in
  let o := if neg then (- o)%Z else o in
  if at_end r2 && valid_offset o then Some (Some o) else None.

Definition parse_tz (s : list ascii) : option (option Z) :=
  match s with
  | "Z" :: r => if at_end r then Some (Some 0%Z) else None
  | "+" :: r => parse_offset false r
  | "-" :: r => parse_offset true r
  | _ => if at_end s then Some None else None
  end.

(** [pydantic.datetime_parse.parse_datetime] on a string, through
    [datetime_re]:
    [(\d{4})-(\d{1,2})-(\d{1,2})[T ](\d{1,2}):(\d{1,2})] and the optional
    groups above.  (A string that [float()] accepts is read by pydantic as a
    Unix timestamp instead; no such string matches this pattern, and that
    numeric path is not modelled.) *)
Definition of_str (s : list ascii) : option t :=
  '(y, r) ← digits_n 4 s;
  r ← Text.expect "-" r;
  '(mo, r) ← digits_1 2 r;
  r ← Text.expect "-" r;
  '(d, r) ← digits_1 2 r;
  r ← match r with
      | c :: r' => if Ascii.eqb c "T" || Ascii.eqb c " " then Some r' else None
      | [] => None
      end;
  '(h, r) ← digits_1 2 r;
  r ← Text.expect ":" r;
  '(mi, r) ← digits_1 2 r;
  '(sec, us, r) ← parse_seconds r;
  tz ← parse_tz r;
  let dt := mk y mo d h mi sec us tz in
  if valid dt then Some dt else None.

End Datetime.

(** ** Python values and exceptions *)

Module Py.

(** The values that travel in an envelope's [content] (typed [Any]) and in
    the keyword arguments of [Envelope(...)]. *)
#[warnings="-register-all"]
Inductive value :=
| PyNone
| PyBool (b : bool)
| PyInt (z : Z)
| PyStr (s : string)
| PyList (l : list value)
| PyTuple (l : list value)
| PyDict (d : list (string * value))
| PyUUID (u : N)
| PyDatetime (d : Datetime.t).

(** [d.get(k)] *)
Fixpoint dict_get {A} (k : string) (d : list (string * A)) : option A :=
  match d with
  | [] => None
  | (k', v) :: r => if String.eqb k k' then Some v else dict_get k r
  end.

(** [d[k] = v]: an existing key keeps its place, a new one goes last. *)
Fixpoint dict_set {A} (k : string) (v : A) (d : list (string * A)) : list (string * A) :=
  match d with
  | [] => [(k, v)]
  | (k', v') :: r => if String.eqb k k' then (k, v) :: r else (k', v') :: dict_set k v r
  end.

(** [dict(pairs)] *)
Definition dict_of_pairs {A} (pairs : list (string * A)) : list (string * A) :=
  fold_left (fun d kv => dict_set (fst kv) (snd kv) d) pairs [].

(** Why pydantic rejects a field. *)
Inductive reason :=
| missing             (* "field required" *)
| none_not_allowed    (* "none is not an allowed value" *)
| wrong_type          (* the value has no reading at the field's type *)
| out_of_range        (* a [conint] bound is violated *)
| not_permitted.      (* not one of the [Literal] choices *)

(** Exceptions.  A [pydantic.ValidationError] lists the rejected fields, each
    with the reason.  [except Exception] catches the classes that derive from
    [Exception]; [KeyboardInterrupt], [SystemExit], [GeneratorExit] and
    [asyncio.CancelledError] derive from [BaseException] only. *)
Inductive exn :=
| ValidationError (errors : list (string * reason))
| TypeError (msg : string)
| ConnectionError (msg : string)
| OtherException (cls msg : string)
| KeyboardInterrupt
| SystemExit (code : Z)
| GeneratorExit
| CancelledError.

(** [isinstance(e, Exception)] *)
Definition is_Exception (e : exn) : bool :=
  match e with
  | ValidationError _ | TypeError _ | ConnectionError _ | OtherException _ _ => true
  | KeyboardInterrupt | SystemExit _ | GeneratorExit | CancelledError => false
  end.

(** A printed line: the pieces of the f-string, with an interpolated
    exception kept as the exception ([str(exc)] is not modelled). *)
Inductive piece :=
| Lit (s : string)
| Exc (e : exn).

Definition line := list piece.

End Py.

Export Py.

(** ** The [json] module *)

Module Json.

Definition is_ws (c : ascii) : bool :=
  Ascii.eqb c " " || Ascii.eqb c "009" || Ascii.eqb c "010" || Ascii.eqb c "013".

Fixpoint skip_ws (s : list ascii) : list ascii :=
  match s with
  | c :: r => if is_ws c then skip_ws r else s
  | [] => []
  end.

(** *** Encoding: [json.dumps(obj, default=encoder)] with the default
    separators and [ensure_ascii=True] *)

Definition escape_char (c : ascii) : list ascii :=
  match c with
  | "034" => ["\"; "034"]
  | "\" => ["\"; "\"]
  | "010" => ["\"; "n"]
  | "013" => ["\"; "r"]
  | "009" => ["\"; "t"]
  | "008" => ["\"; "b"]
  | "012" => ["\"; "f"]
  | _ =>
      if (32 <=? Text.code c) && (Text.code c <=? 126) then [c]
      else "\" :: "u" :: Text.hex_fixed 4 (Text.code c)
  end.

Definition encode_chars (s : list ascii) : list ascii :=
  "034" :: concat (map escape_char s) ++ ["034"].

Definition encode_str (s : string) : list ascii :=
  encode_chars (list_ascii_of_string s).

(** [", ".join(parts)] *)
Fixpoint join (parts : list (list ascii)) : list ascii :=
  match parts with
  | [] => []
  | [p] => p
  | p :: rest => p ++ "," :: " " :: join rest
  end.

(** [UUID] and [datetime] objects are not JSON types: the encoder hands them
    to [default], which for [Envelope] is built from
    [Config.json_encoders = {uuid.UUID: str, datetime: lambda v: v.isoformat()}];
    the resulting string is then encoded. *)
Fixpoint dumps (v : value) : list ascii :=
  match v with
  | PyNone => ["n";"u";"l";"l"]
  | PyBool true => ["t";"r";"u";"e"]
  | PyBool false => ["f";"a";"l";"s";"e"]
  | PyInt z => Text.int_str z
  | PyStr s => encode_str s
  | PyList l | PyTuple l => "[" :: join (map dumps l) ++ ["]"]
  | PyDict d =>
      "{" :: join (map (fun kv => encode_str (fst kv) ++ ":" :: " " :: dumps (snd kv)) d)
        ++ ["}"]
  | PyUUID u => encode_chars (UUID.str u)
  | PyDatetime d => encode_chars (Datetime.isoformat d)
  end.

(** *** Decoding: [json.loads(s)] *)

Definition hex4 (a b c d : ascii) : option N :=
  if forallb Text.is_hex [a; b; c; d] then Some (Text.hex_value [a; b; c; d]) else None.

(** The string scanner, entered after the opening quote; strict mode
    (control characters are refused).  A [\uXXXX] escape above 255 is beyond
    the code points of the model and is reported as an error. *)
Fixpoint scanstring (s : list ascii) : option (list ascii * list ascii) :=
  let cons_to (c : ascii) (r : option (list ascii * list ascii)) :=
    match r with Some (cs, rest) => Some (c :: cs, rest) | None => None end in
  match s with
  | [] => None
  | "034" :: r => Some ([], r)
  | "\" :: "u" :: a :: b :: c :: d :: r =>
      match hex4 a b c d with
      | Some n => if n <? 256 then cons_to (ascii_of_N n) (scanstring r) else None
      | None => None
      end
  | "\" :: e :: r =>
      match e with
      | "034" => cons_to "034" (scanstring r)
      | "\" => cons_to "\" (scanstring r)
      | "/" => cons_to "/" (scanstring r)
      | "b" => cons_to "008" (scanstring r)
      | "f" => cons_to "012" (scanstring r)
      | "n" => cons_to "010" (scanstring r)
      | "r" => cons_to "013" (scanstring r)
      | "t" => cons_to "009" (scanstring r)
      | _ => None
      end
  | "\" :: [] => None
  | c :: r => if Text.code c <? 32 then None else cons_to c (scanstring r)
  end.

(** The integer part of [NUMBER_RE]: an optional minus sign, then either a
    single zero or a non-zero digit followed by digits.  Whatever follows is
    left to the caller, which accepts no dot and no exponent mark there: a
    float literal is a decoding error of the model. *)
Definition scan_int (s : list ascii) : option (Z * list ascii) :=
  let unsigned (r : list ascii) : option (N * list ascii) :=
    match r with
    | c :: r' =>
        if Ascii.eqb c "0" then Some (0, r')
        else if Text.is_digit c
        then let '(ds, r'') := Text.span Text.is_digit r in Some (Text.dec_value ds, r'')
        else None
    | [] => None
    end in
  match s with
  | c :: r =>
      if Ascii.eqb c "-"
      then '(n, r') ← unsigned r; Some ((- Z.of_N n)%Z, r')
      else '(n, r') ← unsigned s; Some (Z.of_N n, r')
  | [] => None
  end.

Section Containers.

Variable scan : list ascii -> option (value * list ascii).

(** [JSONArray], entered at the first element. *)
Fixpoint scan_elems (fuel : nat) (s : list ascii) (acc : list value)
  : option (list value * list ascii) :=
  match fuel with
  | O => None
  | S f =>
      '(v, r) ← scan s;
      match skip_ws r with
      | "]" :: r' => Some (acc ++ [v], r')
      | "," :: r' => scan_elems f (skip_ws r') (acc ++ [v])
      | _ => None
      end
  end.

(** [JSONObject], entered after the opening quote of a key. *)
Fixpoint scan_members (fuel : nat) (s : list ascii) (acc : list (string * value))
  : option (list (string * value) * list ascii) :=
  match fuel with
  | O => None
  | S f =>
      '(k, r) ← scanstring s;
      r ← Text.expect ":" (skip_ws r);
      '(v, r) ← scan (skip_ws r);
      let acc := acc ++ [(string_of_list_ascii k, v)] in
      match skip_ws r with
      | "}" :: r' => Some (acc, r')
      | "," :: r' =>
          match skip_ws r' with
          | "034" :: r'' => scan_members f r'' acc
          | _ => None
          end
      | _ => None
      end
  end.

End Containers.

(** [scan_once], which looks at the next character; [depth] bounds the
    nesting of arrays and objects. *)
Fixpoint scan_once (depth : nat) (s : list ascii) : option (value * list ascii) :=
  match depth, s with
  | S n, c :: r =>
      if Ascii.eqb c "034" then
        '(cs, r') ← scanstring r; Some (PyStr (string_of_list_ascii cs), r')
      else if Ascii.eqb c "{" then
        match skip_ws r with
        | c' :: r' =>
            if Ascii.eqb c' "}" then Some (PyDict [], r')
            else if Ascii.eqb c' "034" then
              '(ps, r'') ← scan_members (scan_once n) (length r') r' [];
              Some (PyDict (dict_of_pairs ps), r'')
            else None
        | [] => None
        end
      else if Ascii.eqb c "[" then
        match skip_ws r with
        | c' :: r' =>
            if Ascii.eqb c' "]" then Some (PyList [], r')
            else '(vs, r'') ← scan_elems (scan_once n) (length r) (c' :: r') [];
                 Some (PyList vs, r'')
        | [] => None
        end
      else
        match Text.strip_prefix ["n";"u";"l";"l"] s,
              Text.strip_prefix ["t";"r";"u";"e"] s,
              Text.strip_prefix ["f";"a";"l";"s";"e"] s with
        | Some r', _, _ => Some (PyNone, r')
        | _, Some r', _ => Some (PyBool true, r')
        | _, _, Some r' => Some (PyBool false, r')
        | _, _, _ => '(z, r') ← scan_int s; Some (PyInt z, r')
        end
  | _, _ => None
  end.

(** [json.loads]: leading blanks, one value, trailing blanks, nothing else. *)
Definition loads (s : list ascii) : option value :=
  match scan_once (length s) (skip_ws s) with
  | Some (v, r) => match skip_ws r with [] => Some v | _ => None end
  | None => None
  end.




(** Nesting of containers, counting the value itself. *)
Fixpoint depth (v : value) : nat :=
  match v with
  | PyList l | PyTuple l => S (foldr Nat.max O (map depth l))
  | PyDict d => S (foldr Nat.max O (map (fun kv => depth (snd kv)) d))
  | _ => 1%nat
  end.


End Json.

(** ** [comm_protocol.Envelope]  (comm_protocol/__init__.py)

    The pydantic (v1) model.  Validation coerces as pydantic does, for the
    input forms listed at each validator; an input form that pydantic would
    coerce and that is not listed is reported as [wrong_type] by the model.
    No statement below depends on such a form being rejected. *)

Module Envelope.

Local Open Scope string_scope.

(** [recipient: Union[str, List[str], Literal["broadcast"]]] *)
Inductive recipient_t :=
| RStr (s : string)
| RList (l : list string).

Record t := mk {
  message_id : N;                      (* uuid.UUID *)
  ts : Datetime.t;                     (* datetime *)
  sender : string;                     (* str *)
  recipient : recipient_t;
  priority : Z;                        (* conint(ge=1, le=5) *)
  kind : string;                       (* Literal[...] *)
  content : list (string * value)      (* Dict[str, Any] *)
}.

Definition kinds : list string := ["request"; "response"; "notification"; "command"].

(** What the two default factories, [uuid.uuid4] and [datetime.utcnow],
    return when a construction calls them. *)
Record defaults := { uuid4 : N; utcnow : Datetime.t }.

Definition result (A : Type) : Type := A + reason.

(** [uuid_validator]: a [UUID] as it is, a string through [UUID(v)]. *)
Definition uuid_validator (v : value) : result N :=
  match v with
  | PyUUID u => inl u
  | PyStr s =>
      match UUID.of_str (list_ascii_of_string s) with
      | Some u => inl u
      | None => inr wrong_type
      end
  | _ => inr wrong_type
  end.

(** [parse_datetime]: a [datetime] as it is, a string through the regular
    expression.  (Numbers, read by pydantic as Unix timestamps, are not
    modelled.) *)
Definition datetime_validator (v : value) : result Datetime.t :=
  match v with
  | PyDatetime d => inl d
  | PyStr s =>
      match Datetime.of_str (list_ascii_of_string s) with
      | Some d => inl d
      | None => inr wrong_type
      end
  | _ => inr wrong_type
  end.

(** [str_validator]: a [str] as it is; an [int] (and so a [bool]) through
    [str(v)]. *)
Definition str_validator (v : value) : result string :=
  match v with
  | PyStr s => inl s
  | PyInt z => inl (string_of_list_ascii (Text.int_str z))
  | PyBool b => inl (if b then "True" else "False")
  | _ => inr wrong_type
  end.

(** [List[str]]: a list or a tuple whose items all pass [str_validator];
    [None] is not an allowed item. *)
Fixpoint str_items (l : list value) : result (list string) :=
  match l with
  | [] => inl []
  | v :: r =>
      match str_validator v, str_items r with
      | inl s, inl ss => inl (s :: ss)
      | _, _ => inr wrong_type
      end
  end.

(** The union tries its members in the order written: [str] first, then
    [List[str]]; a value that reaches [Literal["broadcast"]] is not a string
    and fails there too. *)
Definition recipient_validator (v : value) : result recipient_t :=
  match str_validator v with
  | inl s => inl (RStr s)
  | inr _ =>
      match v with
      | PyList l | PyTuple l =>
          match str_items l with
          | inl ss => inl (RList ss)
          | inr e => inr e
          end
      | _ => inr wrong_type
      end
  end.

(** [int_validator]: an [int] as it is, otherwise [int(v)] ([bool] and
    [UUID] convert; strings are not modelled), then the bounds
    [ge=1] and [le=5]. *)
Definition priority_validator (v : value) : result Z :=
  let bounded (z : Z) : result Z :=
    if (z <? 1)%Z then inr out_of_range
    else if (5 <? z)%Z then inr out_of_range
    else inl z in
  match v with
  | PyInt z => bounded z
  | PyBool b => bounded (if b then 1 else 0)%Z
  | PyUUID u => bounded (Z.of_N u)
  | _ => inr wrong_type
  end.

Definition is_kind (s : string) : bool := existsb (String.eqb s) kinds.

(** [Literal["request", "response", "notification", "command"]] *)
Definition kind_validator (v : value) : result string :=
  match v with
  | PyStr s => if is_kind s then inl s else inr not_permitted
  | _ => inr not_permitted
  end.

(** [Dict[str, Any]]: a dictionary as it is (its values are not inspected). *)
Definition content_validator (v : value) : result (list (string * value)) :=
  match v with
  | PyDict d => inl d
  | _ => inr wrong_type
  end.

(** One field: absent, it takes its default or is reported missing;
    [None] is refused (no field is [Optional]); otherwise its validator
    runs. *)
Definition field {A} (validator : value -> result A) (default : option A)
    (arg : option value) : result A :=
  match arg with
  | None => match default with Some a => inl a | None => inr missing end
  | Some PyNone => inr none_not_allowed
  | Some v => validator v
  end.

Definition errors_of {A} (name : string) (r : result A) : list (string * reason) :=
  match r with
  | inl _ => []
  | inr e => [(name, e)]
  end.

(** The constructor, called with keyword arguments: every field is validated and the failures are
    collected; unknown keywords are ignored. *)
Definition init (d : defaults) (kwargs : list (string * value))
  : t + list (string * reason) :=
  let r_id := field uuid_validator (Some (uuid4 d)) (dict_get "message_id" kwargs) in
  let r_ts := field datetime_validator (Some (utcnow d)) (dict_get "ts" kwargs) in
  let r_sender := field str_validator None (dict_get "sender" kwargs) in
  let r_recipient := field recipient_validator None (dict_get "recipient" kwargs) in
  let r_priority := field priority_validator (Some 3%Z) (dict_get "priority" kwargs) in
  let r_kind := field kind_validator None (dict_get "kind" kwargs) in
  let r_content := field content_validator (Some []) (dict_get "content" kwargs) in
  match r_id, r_ts, r_sender, r_recipient, r_priority, r_kind, r_content with
  | inl i, inl t, inl s, inl r, inl p, inl k, inl c => inl (mk i t s r p k c)
  | _, _, _, _, _, _, _ =>
      inr (concat [errors_of "message_id" r_id; errors_of "ts" r_ts;
                   errors_of "sender" r_sender; errors_of "recipient" r_recipient;
                   errors_of "priority" r_priority; errors_of "kind" r_kind;
                   errors_of "content" r_content])
  end.

(** The names of the model's fields. *)
Definition fields : list string :=
  ["message_id"; "ts"; "sender"; "recipient"; "priority"; "kind"; "content"].

Definition recipient_value (r : recipient_t) : value :=
  match r with
  | RStr s => PyStr s
  | RList l => PyList (map PyStr l)
  end.

(** [envelope.dict()] *)
Definition dict (e : t) : list (string * value) :=
  [ ("message_id", PyUUID (message_id e));
    ("ts", PyDatetime (ts e));
    ("sender", PyStr (sender e));
    ("recipient", recipient_value (recipient e));
    ("priority", PyInt (priority e));
    ("kind", PyStr (kind e));
    ("content", PyDict (content e)) ].

(** [envelope.json()] *)
Definition json (e : t) : string :=
  string_of_list_ascii (Json.dumps (PyDict (dict e))).

(** [Envelope.parse_raw(raw)]: [json.loads], then the model is built from
    the decoded object; a decoding failure and a decoded value that is not
    an object are both reported as a [ValidationError] at [__root__].
    (pydantic first tries [dict(obj)] on a value that is not an object,
    which accepts an array of key/value pairs; that conversion is not
    modelled.) *)
Definition parse_raw (d : defaults) (raw : string) : t + list (string * reason) :=
  match Json.loads (list_ascii_of_string raw) with
  | Some (PyDict obj) => init d obj
  | Some _ => inr [("__root__", wrong_type)]
  | None => inr [("__root__", wrong_type)]
  end.

(** Copies of an envelope that differ in one field. *)
Definition with_sender (s : string) (e : t) : t :=
  mk (message_id e) (ts e) s (recipient e) (priority e) (kind e) (content e).

Definition with_recipient (r : recipient_t) (e : t) : t :=
  mk (message_id e) (ts e) (sender e) r (priority e) (kind e) (content e).


(** The constructor rejects the field [name]. *)
Definition rejects (d : defaults) (kwargs : list (string * value)) (name : string) : Prop :=
  exists errors r, init d kwargs = inr errors /\ (name, r) ∈ errors.

(** The constraints every constructed envelope satisfies. *)
Definition valid (e : t) : bool :=
  UUID.valid (message_id e) && Datetime.valid (ts e)
  && (1 <=? priority e)%Z && (priority e <=? 5)%Z
  && is_kind (kind e).

End Envelope.

(** ** Sample data *)

Module Sample.

Local Open Scope string_scope.

Definition noon : Datetime.t := Datetime.mk 2024 5 17 12 0 0 0 None.

Definition factories : Envelope.defaults :=
  {| Envelope.uuid4 := 0x6f1c2a9e5b3d4c7f8a1b0c2d3e4f5a6b; Envelope.utcnow := noon |}.

(** The request of the acknowledgment scenario. *)
Definition request_kwargs : list (string * value) :=
  [ ("sender", PyStr "sergeant"); ("recipient", PyStr "captain");
    ("kind", PyStr "request"); ("priority", PyInt 2);
    ("content", PyDict [("task", PyStr "patrol")]) ].

Definition request : Envelope.t :=
  Envelope.mk (Envelope.uuid4 factories) noon "sergeant" (Envelope.RStr "captain") 2
    "request" [("task", PyStr "patrol")].



(** No sender name. *)
Definition anonymous_kwargs : list (string * value) :=
  [ ("sender", PyStr ""); ("recipient", PyStr "captain"); ("kind", PyStr "request") ].

Definition anonymous : Envelope.t :=
  Envelope.mk (Envelope.uuid4 factories) noon "" (Envelope.RStr "captain") 3 "request" [].

End Sample.

(** ** The process and its surroundings

    [broker] is the Redis server: for each stream key, the log of entries in
    the order they were appended.  [server_ms] is the server's clock, from
    which it numbers new entries.  [stdout] is what the process has printed.
    [host] gives, for the [tick]-th construction of an envelope, what its
    default factories return.  The broker is taken to be reachable:
    connection failures are not modelled. *)

Definition entry_id : Type := N * N.            (* ["<ms>-<seq>"] *)

Definition entry : Type := entry_id * gmap string string.

Record world := mk_world {
  broker : gmap string (list entry);
  server_ms : N;
  stdout : list line;
  host : nat -> Envelope.defaults;
  tick : nat
}.

Definition print (l : line) (w : world) : world :=
  mk_world (broker w) (server_ms w) (stdout w ++ [l]) (host w) (tick w).

Definition set_broker (b : gmap string (list entry)) (w : world) : world :=
  mk_world b (server_ms w) (stdout w) (host w) (tick w).

Definition set_tick (n : nat) (w : world) : world :=
  mk_world (broker w) (server_ms w) (stdout w) (host w) n.

Definition set_server_ms (ms : N) (w : world) : world :=
  mk_world (broker w) ms (stdout w) (host w) (tick w).

(** ** Redis streams *)

Module Redis.

(** Entry identifiers are ordered by milliseconds, then by sequence number. *)
Definition id_lt (a b : entry_id) : bool :=
  (fst a <? fst b) || ((fst a =? fst b) && (snd a <? snd b)).

(** The identifier of the last entry of a log; [0-0] for an empty one. *)
Definition top (log : list entry) : entry_id :=
  match last log with
  | Some m => fst m
  | None => (0, 0)
  end.

(** The identifier the server gives to a new entry ([XADD key * ...]): the
    clock's millisecond with sequence number 0 if the clock has passed the
    last entry, the last entry's millisecond with the next sequence number
    otherwise. *)
Definition next_id (ms : N) (log : list entry) : entry_id :=
  let '(lms, lseq) := top log in
  if lms <? ms then (ms, 0) else (lms, lseq + 1).

Definition log_of (key : string) (w : world) : list entry :=
  default [] (broker w !! key).

(** [XADD key * field value ...] *)
Definition xadd (key : string) (fields : gmap string string) (w : world) : world :=
  let log := log_of key w in
  set_broker (<[key := log ++ [(next_id (server_ms w) log, fields)]]> (broker w)) w.

(** The entries a read from [from] returns: those with a greater
    identifier. *)
Definition after (from : entry_id) (log : list entry) : list entry :=
  List.filter (fun m => id_lt from (fst m)) log.

(** A log is increasing when every entry's identifier is below those of
    the entries after it, as the server's numbering ensures. *)
Definition before (a b : entry) : Prop := id_lt (fst a) (fst b) = true.

Definition increasing (log : list entry) : Prop := StronglySorted before log.

End Redis.

(** ** [agent_core.bus.RedisBus]  (agent_core/bus.py) *)

Module RedisBus.

Local Open Scope string_scope.

Record t := mk { _url : string; _stream_key : string }.

(** [RedisBus()] *)
Definition new : t := mk "redis://localhost:6379" "conceptualize-bus".

(** [publish] *)
Definition publish (self : t) (envelope : Envelope.t) (w : world) : world :=
  Redis.xadd (_stream_key self) {[ "data" := Envelope.json envelope ]} w.

(** [last_id]: the sentinel ["$"] or an entry identifier. *)
Inductive position :=
| Dollar
| At (i : entry_id).

(** What the generator does that its consumer can see. *)
Inductive event :=
| Yield (envelope : Envelope.t)
| Print (l : line).

(** The generator's local state between two messages: [last_id], and the
    host's tick. *)
Record cursor := mk_cursor { last_id : position; clock : nat }.

(** What a blocking [xread({key: last_id}, block=0)] answers, given the log
    when the call was issued and the log when it returns: ["$"] stands for
    the last identifier at the time of the call; the answer holds the stream
    with its newer entries, and there is no answer (the call stays blocked)
    while there is none. *)
Definition resolve (pos : position) (at_call : list entry) : entry_id :=
  match pos with
  | Dollar => Redis.top at_call
  | At i => i
  end.

Definition xread (key : string) (pos : position) (at_call at_return : list entry)
  : list (string * list entry) :=
  match Redis.after (resolve pos at_call) at_return with
  | [] => []
  | messages => [(key, messages)]
  end.

Section Subscribe.

(** [Envelope.parse_raw], which returns an envelope or raises
    [pydantic.ValidationError]. *)
Variable parse_raw : Envelope.defaults -> string -> Envelope.t + list (string * reason).

Variable host : nat -> Envelope.defaults.

(** The body of [for message_id, data in messages].  [ValidationError]
    derives from [ValueError], so [except Exception] catches it. *)
Definition on_message (c : cursor) (m : entry) : cursor * list event :=
  let '(message_id, data) := m in
  let c := mk_cursor (At message_id) (clock c) in
  match data !! "data" with
  | None => (c, [])
  | Some raw =>
      let c' := mk_cursor (last_id c) (S (clock c)) in
      match parse_raw (host (clock c)) raw with
      | inl envelope => (c', [Yield envelope])
      | inr errors =>
          (c', [Print [Lit "[RedisBus] Failed to parse envelope: ";
                       Exc (ValidationError errors)]])
      end
  end.

Fixpoint on_messages (c : cursor) (messages : list entry) : cursor * list event :=
  match messages with
  | [] => (c, [])
  | m :: rest =>
      let '(c1, ev1) := on_message c m in
      let '(c2, ev2) := on_messages c1 rest in
      (c2, (ev1 ++ ev2)%list)
  end.

(** The body of [while True], after [xread] has answered [streams]. *)
Fixpoint on_streams (c : cursor) (streams : list (string * list entry))
  : cursor * list event :=
  match streams with
  | [] => (c, [])
  | (_stream, messages) :: rest =>
      let '(c1, ev1) := on_messages c messages in
      let '(c2, ev2) := on_streams c1 rest in
      (c2, (ev1 ++ ev2)%list)
  end.

(** [subscribe(last_id)] against a log that grows: [logs] gives, for each
    successive [xread], the log when the call returns (and so the log when
    the next call is issued); [log0] is the log when the first call is
    issued. *)
Fixpoint subscribe (key : string) (c : cursor) (log0 : list entry)
    (logs : list (list entry)) : cursor * list event :=
  match logs with
  | [] => (c, [])
  | log1 :: rest =>
      let '(c1, ev1) := on_streams c (xread key (last_id c) log0 log1) in
      let '(c2, ev2) := subscribe key c1 log1 rest in
      (c2, (ev1 ++ ev2)%list)
  end.

(** The entries the successive [xread] calls of [subscribe] hand to the
    loop, in the order read. *)
Fixpoint consumed (key : string) (c : cursor) (log0 : list entry)
    (logs : list (list entry)) : list entry :=
  match logs with
  | [] => []
  | log1 :: rest =>
      let streams := xread key (last_id c) log0 log1 in
      (concat (map snd streams) ++ consumed key (fst (on_streams c streams)) log1 rest)%list
  end.

(** Each log extends the one before it. *)
Fixpoint grows (log0 : list entry) (logs : list (list entry)) : Prop :=
  match logs with
  | [] => True
  | log1 :: rest => log0 `prefix_of` log1 /\ grows log1 rest
  end.

(** The generator's cursor after these calls. *)
Definition cursor_after (key : string) (c : cursor) (log0 : list entry)
    (logs : list (list entry)) : cursor :=
  fst (subscribe key c log0 logs).

End Subscribe.

(** The envelopes among the events. *)
Definition yielded (evs : list event) : list Envelope.t :=
  omap (fun ev => match ev with Yield e => Some e | Print _ => None end) evs.


(** Whether an entry has the field that [subscribe] reads,
    [data.get("data") is not None]. *)
Definition has_data (m : entry) : bool :=
  match snd m !! "data" with
  | Some _ => true
  | None => false
  end.

(** The attribute [_redis], which [__init__] sets to [None], and the
    clients [aioredis.from_url] has made so far, each recorded by the URL it
    was made for; a client is named by its rank among them.  (A call of
    [from_url] that fails is not modelled.) *)
Record link := mk_link { _redis : option nat; opened : list string }.

(** [_ensure_conn] *)
Definition _ensure_conn (self : t) (k : link) : nat * link :=
  match _redis k with
  | None =>
      let client := length (opened k) in
      (client, mk_link (Some client) (opened k ++ [_url self]))
  | Some client => (client, k)
  end.

(** The clients that successive uses of the bus obtain: [publish] and
    [subscribe] each begin with [_ensure_conn]. *)
Fixpoint clients (self : t) (uses : nat) (k : link) : list nat * link :=
  match uses with
  | O => ([], k)
  | S n =>
      let '(client, k1) := _ensure_conn self k in
      let '(rest, k2) := clients self n k1 in
      (client :: rest, k2)
  end.

End RedisBus.

(** ** [agent_core.base_agent.BaseAgent]  (agent_core/base_agent.py) *)

Module BaseAgent.

Local Open Scope string_scope.

Record t := mk { agent_id : string; bus : RedisBus.t }.

(** The abstract method [handle]: it acts on the world and either returns
    or raises. *)
Definition handler : Type := t -> Envelope.t -> world -> option exn * world.

(** [rcpt == s], for a string [s]: a list never equals a string. *)
Definition eq_str (rcpt : Envelope.recipient_t) (s : string) : bool :=
  match rcpt with
  | Envelope.RStr r => String.eqb r s
  | Envelope.RList _ => false
  end.

(** [isinstance(rcpt, list) and s in rcpt] *)
Definition is_list_with (rcpt : Envelope.recipient_t) (s : string) : bool :=
  match rcpt with
  | Envelope.RStr _ => false
  | Envelope.RList l => existsb (String.eqb s) l
  end.

Definition _should_handle (self : t) (envelope : Envelope.t) : bool :=
  let rcpt := Envelope.recipient envelope in
  eq_str rcpt (agent_id self) || eq_str rcpt "broadcast"
  || is_list_with rcpt (agent_id self).

Definition _safe_handle (handle : handler) (self : t) (envelope : Envelope.t)
    (w : world) : option exn * world :=
  match handle self envelope w with
  | (None, w') => (None, w')
  | (Some exc, w') =>
      if is_Exception exc
      then (None, print [Lit ("[" ++ agent_id self ++ "] Error while handling message: ");
                         Exc exc] w')
      else (Some exc, w')
  end.

(** The body of [async for envelope in self.bus.subscribe()]: a matching
    envelope becomes a task, [asyncio.create_task(self._safe_handle(envelope))],
    queued behind the tasks already created; what the generator prints goes
    to the output. *)
Definition on_event (self : t) (ev : RedisBus.event)
    (st : world * list Envelope.t) : world * list Envelope.t :=
  let '(w, tasks) := st in
  match ev with
  | RedisBus.Print l => (print l w, tasks)
  | RedisBus.Yield envelope =>
      if _should_handle self envelope then (w, (tasks ++ [envelope])%list) else (w, tasks)
  end.

Definition on_events (self : t) (evs : list RedisBus.event)
    (st : world * list Envelope.t) : world * list Envelope.t :=
  fold_left (fun st ev => on_event self ev st) evs st.

(** The asyncio task runner ([Task.__step]): an exception that escapes a
    task's coroutine is stored in the task, and the loop goes on; only
    [KeyboardInterrupt] and [SystemExit] are raised again through the event
    loop, which ends [asyncio.run]. *)
Definition ends_event_loop (exc : exn) : bool :=
  match exc with
  | KeyboardInterrupt | SystemExit _ => true
  | _ => false
  end.

Inductive status :=
| Running
| Stopped (exc : exn).

(** The queued tasks run when the loop next waits for the broker; here each
    runs to its end, in the order of creation. *)
Fixpoint run_tasks (handle : handler) (self : t) (tasks : list Envelope.t)
    (w : world) : status * world :=
  match tasks with
  | [] => (Running, w)
  | envelope :: rest =>
      match _safe_handle handle self envelope w with
      | (Some exc, w') =>
          if ends_event_loop exc then (Stopped exc, w') else run_tasks handle self rest w'
      | (None, w') => run_tasks handle self rest w'
      end
  end.

Section RunForever.

Variable parse_raw : Envelope.defaults -> string -> Envelope.t + list (string * reason).

Variable handle : handler.

(** Other producers append entries to the stream: each is a server time
    and the entry's fields. *)
Definition produce (key : string) (w : world) (p : N * gmap string string) : world :=
  Redis.xadd key (snd p) (set_server_ms (fst p) w).

(** The first half of a turn of the receive loop: [xread] is issued at
    [pos]; other producers append [produced]; the answer is consumed by the
    generator. *)
Definition receive (self : t) (pos : RedisBus.position)
    (produced : list (N * gmap string string)) (w : world)
  : RedisBus.cursor * list RedisBus.event * world :=
  let key := RedisBus._stream_key (bus self) in
  let at_call := Redis.log_of key w in
  let w := fold_left (produce key) produced w in
  let streams := RedisBus.xread key pos at_call (Redis.log_of key w) in
  let '(c, evs) :=
    RedisBus.on_streams parse_raw (host w) (RedisBus.mk_cursor pos (tick w)) streams in
  (c, evs, set_tick (RedisBus.clock c) w).

(** One turn: the events received queue the tasks of the matching
    envelopes, then the tasks run.  The envelopes handed to [create_task]
    are returned with the new state. *)
Definition turn (self : t) (pos : RedisBus.position) (produced : list (N * gmap string string))
    (w : world) : status * RedisBus.position * list Envelope.t * world :=
  let '(c, evs, w) := receive self pos produced w in
  let '(w, tasks) := on_events self evs (w, []) in
  let '(s, w) := run_tasks handle self tasks w in
  (s, RedisBus.last_id c, tasks, w).



End RunForever.


End BaseAgent.

(** ** [CaptainAgent]  (apps/captain/main.py) *)

Module CaptainAgent.

Local Open Scope string_scope.

Definition handle : BaseAgent.handler := fun self envelope w =>
  let w := print [Lit ("[Captain] Handling " ++ Envelope.kind envelope
                       ++ " from " ++ Envelope.sender envelope)] w in
  let d := host w (tick w) in
  let w := set_tick (S (tick w)) w in
  match Envelope.init d
          [ ("sender", PyStr (BaseAgent.agent_id self));
            ("recipient", PyStr (Envelope.sender envelope));
            ("priority", PyInt (Envelope.priority envelope));
            ("kind", PyStr "response");
            ("content", PyDict [ ("status", PyStr "ack");
                                 ("echo", PyDict (Envelope.content envelope)) ]) ]
  with
  | inr errors => (Some (ValidationError errors), w)
  | inl response => (None, RedisBus.publish (BaseAgent.bus self) response w)
  end.

(** The envelope that [handle] constructs for [envelope] once the
    arguments have passed validation, the default factories returning
    [made]. *)
Definition response (self : BaseAgent.t) (envelope : Envelope.t)
    (made : Envelope.defaults) : Envelope.t :=
  Envelope.mk (Envelope.uuid4 made) (Envelope.utcnow made)
    (BaseAgent.agent_id self)
    (Envelope.RStr (Envelope.sender envelope))
    (Envelope.priority envelope)
    "response"
    [("status", PyStr "ack"); ("echo", PyDict (Envelope.content envelope))].

(** [main]: the bus with its default settings, the agent ["captain"]. *)
Definition captain : BaseAgent.t := BaseAgent.mk "captain" RedisBus.new.


End CaptainAgent.

(** ** Sample processes *)

Module Scenario.

Local Open Scope string_scope.

(** A world with an empty broker, where nothing has been printed. *)
Definition quiet : world := mk_world ∅ 1000 [] (fun _ => Sample.factories) 0.


(** A handler that ends the process, as [sys.exit(1)] does. *)
Definition quitter : BaseAgent.handler :=
  fun self envelope w => (Some (SystemExit 1), w).

(** Entries as the broker holds them. *)
Definition patrol : gmap string string := {[ "data" := Envelope.json Sample.request ]}.

Definition garbled : gmap string string := {[ "data" := "not json" ]}.

Definition blank : gmap string string := {[ "note" := "no payload" ]}.

(** The sample request addressed to another agent, as the broker holds
    it. *)
Definition elsewhere : gmap string string :=
  {[ "data" := Envelope.json
       (Envelope.with_recipient (Envelope.RStr "sergeant") Sample.request) ]}.


(** A log that grows from one entry to three. *)
Definition log1 : list entry := [((1000, 0), patrol)].

Definition log2 : list entry := [((1000, 0), patrol); ((1000, 1), blank)].

Definition log3 : list entry :=
  [((1000, 0), patrol); ((1000, 1), blank); ((1005, 0), garbled)].

End Scenario.

(** * Properties *)

(** ** Dictionaries *)

Section Dict.

Context {A : Type}.

Lemma dict_get_set_eq (k : string) (v : A) d : dict_get k (dict_set k v d) = Some v.
Proof.
  induction d as [|[k' v'] d IH]; simpl.
  - by rewrite String.eqb_refl.
  - destruct (String.eqb k k') eqn:E; simpl.
    + by rewrite String.eqb_refl.
    + by rewrite E.
Qed.

Lemma dict_get_set_ne (k k' : string) (v : A) d :
  k ≠ k' → dict_get k' (dict_set k v d) = dict_get k' d.
Proof.
  intros Hne. induction d as [|[k0 v0] d IH]; simpl.
  - destruct (String.eqb k' k) eqn:E; [|done].
    apply String.eqb_eq in E. congruence.
  - destruct (String.eqb k k0) eqn:E; simpl.
    + apply String.eqb_eq in E. subst k0.
      destruct (String.eqb k' k) eqn:E'; [|done].
      apply String.eqb_eq in E'. congruence.
    + by rewrite IH.
Qed.

End Dict.

(** ** Construction of envelopes *)

Section Construction.

Import Envelope.
Local Open Scope string_scope.

(** All the failures the constructor reports, field by field. *)
Lemma init_inl d kw e :
  init d kw = inl e ↔
    field uuid_validator (Some (uuid4 d)) (dict_get "message_id" kw) = inl (message_id e)
    ∧ field datetime_validator (Some (utcnow d)) (dict_get "ts" kw) = inl (ts e)
    ∧ field str_validator None (dict_get "sender" kw) = inl (sender e)
    ∧ field recipient_validator None (dict_get "recipient" kw) = inl (recipient e)
    ∧ field priority_validator (Some 3%Z) (dict_get "priority" kw) = inl (priority e)
    ∧ field kind_validator None (dict_get "kind" kw) = inl (kind e)
    ∧ field content_validator (Some []) (dict_get "content" kw) = inl (content e).
Proof.
  unfold init.
  destruct (field uuid_validator _ _), (field datetime_validator _ _),
    (field str_validator _ _), (field recipient_validator _ _),
    (field priority_validator _ _), (field kind_validator _ _),
    (field content_validator _ _); destruct e; simpl; split;
    try (intros [=]; subst; done);
    try (intros (?&?&?&?&?&?&?); congruence).
Qed.

Lemma init_rejects d kw name (r : reason) :
  (name, r) ∈ concat
    [ errors_of "message_id" (field uuid_validator (Some (uuid4 d)) (dict_get "message_id" kw));
      errors_of "ts" (field datetime_validator (Some (utcnow d)) (dict_get "ts" kw));
      errors_of "sender" (field str_validator None (dict_get "sender" kw));
      errors_of "recipient" (field recipient_validator None (dict_get "recipient" kw));
      errors_of "priority" (field priority_validator (Some 3%Z) (dict_get "priority" kw));
      errors_of "kind" (field kind_validator None (dict_get "kind" kw));
      errors_of "content" (field content_validator (Some []) (dict_get "content" kw)) ] →
  ∃ errors, init d kw = inr errors ∧ (name, r) ∈ errors.
Proof.
  unfold init.
  destruct (field uuid_validator _ _), (field datetime_validator _ _),
    (field str_validator _ _), (field recipient_validator _ _),
    (field priority_validator _ _), (field kind_validator _ _),
    (field content_validator _ _); simpl; intros H;
    try (by apply elem_of_nil in H); eexists; (split; [reflexivity|exact H]).
Qed.

End Construction.

(** ** The recipient filter *)

Section Filter.

Import Envelope BaseAgent.
Local Open Scope string_scope.

Lemma existsb_eqb_elem_of (s : string) (l : list string) :
  existsb (String.eqb s) l = true ↔ s ∈ l.
Proof.
  induction l as [|x l IH]; simpl.
  - split; [done | by intros ?%elem_of_nil].
  - rewrite orb_true_iff, IH, elem_of_cons, String.eqb_eq. done.
Qed.

Lemma eq_str_true rcpt s : eq_str rcpt s = true ↔ rcpt = RStr s.
Proof.
  destruct rcpt as [r|l]; simpl.
  - rewrite String.eqb_eq. split; congruence.
  - split; [done | congruence].
Qed.

Lemma is_list_with_true rcpt s :
  is_list_with rcpt s = true ↔ ∃ l, rcpt = RList l ∧ s ∈ l.
Proof.
  destruct rcpt as [r|l]; simpl.
  - split; [done | by intros (?&?&?)].
  - rewrite existsb_eqb_elem_of. split.
    + eauto.
    + by intros (l' & [= <-] & ?).
Qed.

(** C3. The filter of an agent matches an envelope exactly when the
    envelope's recipient is the agent's identifier, or is the string
    "broadcast", or is a list that contains the agent's identifier; an
    envelope that does not match is dropped by the receive loop: no task is
    created for it and nothing is printed. *)
Theorem recipient_filter (self : BaseAgent.t) (e : Envelope.t)
    (w : world) (tasks : list Envelope.t) :
  let rcpt := recipient e in
  let matches :=
    rcpt = RStr (agent_id self) ∨ rcpt = RStr "broadcast"
    ∨ ∃ l, rcpt = RList l ∧ agent_id self ∈ l in
  (_should_handle self e = true ↔ matches)
  ∧ (¬ matches → on_event self (RedisBus.Yield e) (w, tasks) = (w, tasks)).
Proof.
  intros rcpt matches.
  assert (Hiff : _should_handle self e = true ↔ matches).
  { unfold _should_handle, matches. fold rcpt.
    rewrite !orb_true_iff, !eq_str_true, is_list_with_true. tauto. }
  split; [exact Hiff|].
  intros Hno. simpl.
  destruct (_should_handle self e) eqn:E; [|done].
  exfalso. apply Hno, Hiff. done.
Qed.

(** C10. Whenever a construction succeeds, the same construction with
    [recipient=[]] succeeds too, and gives the same envelope with the empty
    list as its recipient; no agent's filter matches that envelope, so every
    receive loop drops it. *)
Theorem empty_recipient_list (d : defaults) (kw : list (string * value)) (e : Envelope.t) :
  init d kw = inl e →
  init d (dict_set "recipient" (PyList []) kw) = inl (with_recipient (RList []) e)
  ∧ ∀ (self : BaseAgent.t) (w : world) (tasks : list Envelope.t),
      _should_handle self (with_recipient (RList []) e) = false
      ∧ on_event self (RedisBus.Yield (with_recipient (RList []) e)) (w, tasks) = (w, tasks).
Proof.
  intros H. split.
  - apply init_inl in H as (H1 & H2 & H3 & H4 & H5 & H6 & H7).
    apply init_inl. rewrite dict_get_set_eq.
    rewrite !(dict_get_set_ne "recipient") by done.
    destruct e; simpl in *. done.
  - intros self w tasks.
    assert (Hf : _should_handle self (with_recipient (RList []) e) = false)
      by (unfold _should_handle; simpl; done).
    split; [exact Hf | reflexivity].
Qed.

Lemma empty_recipient_list_witness :
  init Sample.factories Sample.request_kwargs = inl Sample.request
  ∧ init Sample.factories (dict_set "recipient" (PyList []) Sample.request_kwargs)
    = inl (with_recipient (RList []) Sample.request)
  ∧ _should_handle CaptainAgent.captain (with_recipient (RList []) Sample.request) = false.
Proof.
  split; [reflexivity|].
  destruct (empty_recipient_list Sample.factories Sample.request_kwargs Sample.request)
    as [Hinit Hdrop]; [reflexivity|].
  split; [exact Hinit|]. apply (Hdrop CaptainAgent.captain Scenario.quiet []).
Defined.

End Filter.

(** ** Numerals *)

Section Numerals.

Import Text.

Lemma code_ascii_of_N n : n < 256 → code (ascii_of_N n) = n.
Proof. apply N_ascii_embedding. Qed.

Lemma ascii_of_code c : ascii_of_N (code c) = c.
Proof. apply ascii_N_embedding. Qed.

Lemma code_bounded c : code c < 256.
Proof. apply N_ascii_bounded. Qed.

Lemma code_inj c c' : code c = code c' → c = c'.
Proof. intros H. rewrite <- (ascii_of_code c), H. apply ascii_of_code. Qed.

Lemma code_digit_char d : d < 10 → code (digit_char d) = 48 + d.
Proof. intros. apply code_ascii_of_N. lia. Qed.

Lemma is_digit_digit_char d : d < 10 → is_digit (digit_char d) = true.
Proof.
  intros H. unfold is_digit. rewrite code_digit_char by done.
  apply andb_true_iff. split; apply N.leb_le; lia.
Qed.

Lemma digit_val_digit_char d : d < 10 → digit_val (digit_char d) = d.
Proof. intros H. unfold digit_val. rewrite code_digit_char by done. lia. Qed.

Lemma dec_value_snoc ds c : dec_value (ds ++ [c]) = 10 * dec_value ds + digit_val c.
Proof. unfold dec_value. by rewrite fold_left_app. Qed.

Lemma dec_fixed_length k n : length (dec_fixed k n) = k.
Proof.
  revert n. induction k as [|k IH]; intros n; simpl; [done|].
  rewrite length_app, IH. simpl. lia.
Qed.

Lemma dec_fixed_digits k n : Forall (λ c, is_digit c = true) (dec_fixed k n).
Proof.
  revert n. induction k as [|k IH]; intros n; simpl; [constructor|].
  apply Forall_app. split; [apply IH|].
  constructor; [|constructor]. apply is_digit_digit_char.
  apply N.mod_lt. done.
Qed.

Lemma dec_fixed_value k n : n < 10 ^ N.of_nat k → dec_value (dec_fixed k n) = n.
Proof.
  revert n. induction k as [|k IH]; intros n Hn.
  - simpl in *. unfold dec_value. simpl. lia.
  - cbn [dec_fixed]. rewrite dec_value_snoc, IH, digit_val_digit_char.
    + symmetry. apply N.div_mod. done.
    + apply N.mod_lt. done.
    + apply N.Div0.div_lt_upper_bound.
      rewrite Nat2N.inj_succ, N.pow_succ_r' in Hn. done.
Qed.





Lemma code_hex_char d :
  d < 16 → code (hex_char d) = if d <? 10 then 48 + d else 87 + d.
Proof.
  intros H. unfold hex_char. destruct (d <? 10) eqn:E.
  - apply N.ltb_lt in E. apply code_ascii_of_N. lia.
  - apply code_ascii_of_N. lia.
Qed.

Lemma is_hex_hex_char d : d < 16 → is_hex (hex_char d) = true.
Proof.
  intros H. unfold is_hex, is_digit. rewrite code_hex_char by done.
  destruct (d <? 10) eqn:E.
  - apply N.ltb_lt in E. apply orb_true_iff. left. apply orb_true_iff. left.
    apply andb_true_iff. split; apply N.leb_le; lia.
  - apply N.ltb_ge in E. apply orb_true_iff. left. apply orb_true_iff. right.
    apply andb_true_iff. split; apply N.leb_le; lia.
Qed.

Lemma hex_val_hex_char d : d < 16 → hex_val (hex_char d) = d.
Proof.
  intros H. unfold hex_val, is_digit. rewrite code_hex_char by done.
  destruct (d <? 10) eqn:E.
  - apply N.ltb_lt in E.
    replace (48 <=? 48 + d) with true by (symmetry; apply N.leb_le; lia).
    replace (48 + d <=? 57) with true by (symmetry; apply N.leb_le; lia).
    simpl. lia.
  - apply N.ltb_ge in E.
    replace (87 + d <=? 57) with false by (symmetry; apply N.leb_gt; lia).
    rewrite andb_false_r.
    replace (97 <=? 87 + d) with true by (symmetry; apply N.leb_le; lia).
    lia.
Qed.

Lemma hex_value_snoc ds c : hex_value (ds ++ [c]) = 16 * hex_value ds + hex_val c.
Proof. unfold hex_value. by rewrite fold_left_app. Qed.

Lemma hex_fixed_length k n : length (hex_fixed k n) = k.
Proof.
  revert n. induction k as [|k IH]; intros n; simpl; [done|].
  rewrite length_app, IH. simpl. lia.
Qed.

Lemma hex_fixed_hex k n : Forall (λ c, is_hex c = true) (hex_fixed k n).
Proof.
  revert n. induction k as [|k IH]; intros n; simpl; [constructor|].
  apply Forall_app. split; [apply IH|].
  constructor; [|constructor]. apply is_hex_hex_char. apply N.mod_lt. done.
Qed.

Lemma hex_fixed_value k n : n < 16 ^ N.of_nat k → hex_value (hex_fixed k n) = n.
Proof.
  revert n. induction k as [|k IH]; intros n Hn.
  - simpl in *. unfold hex_value. simpl. lia.
  - cbn [hex_fixed]. rewrite hex_value_snoc, IH, hex_val_hex_char.
    + symmetry. apply N.div_mod. done.
    + apply N.mod_lt. done.
    + apply N.Div0.div_lt_upper_bound.
      rewrite Nat2N.inj_succ, N.pow_succ_r' in Hn. done.
Qed.

(** A lower-case hexadecimal digit is none of the characters that
    [UUID(...)] removes. *)
Lemma hex_char_plain d :
  d < 16 →
  UUID.plain (hex_char d).
Proof.
  intros H. unfold UUID.plain. set (c := hex_char d).
  assert (Hc : code c = if d <? 10 then 48 + d else 87 + d) by (by apply code_hex_char).
  assert (Hne : ∀ x : ascii, code x ≠ code c → Ascii.eqb x c = false).
  { intros x Hx. apply Ascii.eqb_neq. congruence. }
  unfold UUID.is_brace. rewrite (Ascii.eqb_sym c "{"), (Ascii.eqb_sym c "}").
  rewrite !Hne; [done|..]; rewrite Hc; simpl;
    destruct (d <? 10) eqn:E;
    (apply N.ltb_lt in E || apply N.ltb_ge in E); lia.
Qed.

End Numerals.

(** ** UUIDs: [UUID(str(u)) == u] *)

Section UUIDs.

Import Text.

Lemma forallb_Forall {A} (f : A → bool) l :
  Forall (λ x, f x = true) l → forallb f l = true.
Proof. induction 1; simpl; [done|]. apply andb_true_iff. done. Qed.

Lemma remove_all_fuel_absent fuel p pat s :
  Forall (λ c, Ascii.eqb p c = false) s → remove_all_fuel fuel (p :: pat) s = s.
Proof.
  revert s. induction fuel as [|fuel IH]; intros s Hs; [done|].
  destruct Hs as [|c s Hc Hs]; simpl; [done|].
  rewrite Hc. f_equal. by apply IH.
Qed.

Lemma remove_all_fuel_single fuel c s :
  (length s ≤ fuel)%nat →
  remove_all_fuel fuel [c] s = List.filter (λ x, negb (Ascii.eqb c x)) s.
Proof.
  revert s. induction fuel as [|fuel IH]; intros s Hs.
  - destruct s; simpl in *; [done|lia].
  - destruct s as [|x s]; simpl in *; [done|].
    destruct (Ascii.eqb c x); simpl; rewrite IH by lia; done.
Qed.

Lemma filter_keeps_all {A} (f : A → bool) l :
  Forall (λ x, f x = true) l → List.filter f l = l.
Proof. induction 1 as [|x l Hx _ IH]; simpl; [done|]. by rewrite Hx, IH. Qed.

Lemma drop_while_head (p : ascii → bool) s :
  match s with c :: _ => p c = false | [] => True end → drop_while p s = s.
Proof. unfold drop_while. destruct s as [|c s]; simpl; [done|]. by intros ->. Qed.

Lemma strip_absent (p : ascii → bool) s :
  Forall (λ c, p c = false) s → strip p s = s.
Proof.
  intros Hs. unfold strip.
  rewrite (drop_while_head p s) by (by destruct Hs).
  rewrite drop_while_head; [apply rev_involutive|].
  apply Forall_rev in Hs. by destruct Hs.
Qed.

Lemma hex_fixed_plain k n : Forall UUID.plain (hex_fixed k n).
Proof.
  revert n. induction k as [|k IH]; intros n; simpl; [constructor|].
  apply Forall_app. split; [apply IH|].
  constructor; [|constructor]. apply hex_char_plain, N.mod_lt. done.
Qed.

Lemma regroup (hex : list ascii) :
  take 8 hex ++ take 4 (drop 8 hex) ++ take 4 (drop 12 hex)
    ++ take 4 (drop 16 hex) ++ drop 20 hex = hex.
Proof.
  pose proof (take_drop 4 (drop 16 hex)) as E4.
  pose proof (take_drop 4 (drop 12 hex)) as E3.
  pose proof (take_drop 4 (drop 8 hex)) as E2.
  rewrite drop_drop in E2, E3, E4. cbn [Nat.add] in E2, E3, E4.
  rewrite E4, E3, E2. apply take_drop.
Qed.

(** The constructor on the dashed form of any run of plain characters. *)
Lemma uuid_of_dashed (hex : list ascii) :
  Forall UUID.plain hex →
  UUID.of_str (take 8 hex ++ "-" :: take 4 (drop 8 hex) ++ "-" :: take 4 (drop 12 hex)
                 ++ "-" :: take 4 (drop 16 hex) ++ "-" :: drop 20 hex)
  = if (length hex =? 32)%nat && forallb is_hex hex
    then Some (hex_value hex) else None.
Proof.
  intros Hp.
  assert (Hparts : Forall UUID.plain (take 8 hex) ∧ Forall UUID.plain (take 4 (drop 8 hex))
          ∧ Forall UUID.plain (take 4 (drop 12 hex)) ∧ Forall UUID.plain (take 4 (drop 16 hex))
          ∧ Forall UUID.plain (drop 20 hex)).
  { repeat split; repeat (apply Forall_take || apply Forall_drop); done. }
  destruct Hparts as (P1 & P2 & P3 & P4 & P5).
  set (s := take 8 hex ++ "-" :: take 4 (drop 8 hex) ++ "-" :: take 4 (drop 12 hex)
              ++ "-" :: take 4 (drop 16 hex) ++ "-" :: drop 20 hex).
  assert (Hweak : ∀ l, Forall UUID.plain l →
            Forall (λ c, Ascii.eqb "u" c = false ∧ UUID.is_brace c = false) l).
  { intros l Hl. eapply Forall_impl; [exact Hl|]. intros c (?&?&?). done. }
  assert (Hall : Forall (λ c, Ascii.eqb "u" c = false ∧ UUID.is_brace c = false) s).
  { unfold s. repeat (rewrite Forall_app || rewrite Forall_cons).
    repeat split; try reflexivity; by apply Hweak. }
  assert (Hu' : ∀ fuel pat, remove_all_fuel fuel ("u" :: pat) s = s).
  { intros fuel pat. apply remove_all_fuel_absent.
    eapply Forall_impl; [exact Hall|]. intros c [? ?]. done. }
  assert (Hkeep : ∀ l, Forall UUID.plain l →
            List.filter (λ x, negb (Ascii.eqb "-" x)) l = l).
  { intros l Hl. apply filter_keeps_all. eapply Forall_impl; [exact Hl|].
    intros c (_ & -> & _). done. }
  assert (Hdash : List.filter (λ x, negb (Ascii.eqb "-" x)) s = hex).
  { unfold s.
    repeat (rewrite List.filter_app; cbn [List.filter Ascii.eqb Bool.eqb negb]).
    rewrite !Hkeep by done. apply regroup. }
  unfold UUID.of_str, remove_all.
  rewrite (Hu' _ ["r";"n";":"]), (Hu' _ ["u";"i";"d";":"]).
  rewrite strip_absent
    by (eapply Forall_impl; [exact Hall|]; intros c [? ?]; done).
  rewrite remove_all_fuel_single by (apply Nat.le_succ_diag_r).
  by rewrite Hdash.
Qed.

Lemma uuid_of_str_str u : UUID.valid u = true → UUID.of_str (UUID.str u) = Some u.
Proof.
  intros Hu. apply N.ltb_lt in Hu.
  unfold UUID.str. cbv zeta.
  rewrite (uuid_of_dashed (hex_fixed 32 u)) by apply hex_fixed_plain.
  rewrite hex_fixed_length, (forallb_Forall _ _ (hex_fixed_hex 32 u)).
  rewrite (hex_fixed_value 32 u Hu). reflexivity.
Qed.

Lemma uuid_str_nonempty u : UUID.str u ≠ [].
Proof.
  unfold UUID.str. cbv zeta. generalize (hex_fixed 32 u). intros hex H.
  apply (f_equal length) in H. rewrite length_app in H.
  cbn [length] in H. lia.
Qed.

End UUIDs.

(** ** Datetimes: [parse_datetime(d.isoformat()) == d] *)

Section Datetimes.

Import Text Datetime.

Lemma dec_fixed_cons k n : ∃ c tl, dec_fixed (S k) n = c :: tl.
Proof.
  pose proof (dec_fixed_length (S k) n) as H.
  destruct (dec_fixed (S k) n) as [|c tl]; [done|eauto].
Qed.

Lemma digits_upto_exact k ds rest :
  Forall (λ c, is_digit c = true) ds → length ds = k →
  digits_upto k (ds ++ rest) = (ds, rest).
Proof.
  intros Hd. revert k. induction Hd as [|c ds Hc Hd IH]; intros k Hk.
  - simpl in Hk. subst k. simpl. by destruct rest.
  - simpl in Hk. subst k. simpl. by rewrite Hc, (IH (length ds)).
Qed.

Lemma digits_upto_stop k ds rest :
  Forall (λ c, is_digit c = true) ds → (length ds ≤ k)%nat → no_digit_head rest →
  digits_upto k (ds ++ rest) = (ds, rest).
Proof.
  intros Hd. revert k. induction Hd as [|c ds Hc Hd IH]; intros k Hk Hr.
  - simpl. destruct k, rest as [|c r]; simpl in *; try done. by rewrite Hr.
  - simpl in Hk. destruct k as [|k]; [lia|]. simpl.
    rewrite Hc, (IH k) by (done || lia). done.
Qed.

Lemma digits_n_fixed k n rest :
  n < 10 ^ N.of_nat k → digits_n k (dec_fixed k n ++ rest) = Some (n, rest).
Proof.
  intros Hn. unfold digits_n.
  rewrite digits_upto_exact by (apply dec_fixed_digits || apply dec_fixed_length).
  rewrite dec_fixed_length, Nat.eqb_refl, dec_fixed_value by done. done.
Qed.

Lemma digits_1_fixed k n rest :
  n < 10 ^ N.of_nat (S k) →
  digits_1 (S k) (dec_fixed (S k) n ++ rest) = Some (n, rest).
Proof.
  intros Hn. unfold digits_1.
  rewrite digits_upto_exact by (apply dec_fixed_digits || apply dec_fixed_length).
  pose proof (dec_fixed_value (S k) n Hn) as Hv.
  destruct (dec_fixed_cons k n) as (c & tl & E). rewrite E in *. by rewrite Hv.
Qed.

Lemma days_in_month_le y m : days_in_month y m <= 31.
Proof.
  unfold days_in_month.
  destruct (m =? 2); [destruct (is_leap y); lia|].
  destruct (_ || _); lia.
Qed.

Lemma valid_bounds d :
  valid d = true →
  year d < 10 ^ 4 ∧ month d < 10 ^ 2 ∧ day d < 10 ^ 2 ∧ hour d < 10 ^ 2
  ∧ minute d < 10 ^ 2 ∧ second d < 10 ^ 2 ∧ microsecond d < 10 ^ 6
  ∧ match tzinfo d with Some o => valid_offset o = true | None => True end.
Proof.
  unfold valid. rewrite !andb_true_iff, !N.leb_le, !N.ltb_lt.
  intros ((((((((((? & ?) & ?) & ?) & ?) & Hd) & ?) & ?) & ?) & ?) & Htz).
  pose proof (days_in_month_le (year d) (month d)).
  repeat split; try lia. by destruct (tzinfo d).
Qed.

Lemma parse_fraction_format us rest :
  us < 10 ^ 6 → no_digit_head rest →
  match rest with "." :: _ => False | _ => True end →
  parse_fraction ((if us =? 0 then [] else "." :: dec_fixed 6 us) ++ rest)
  = Some (us, rest).
Proof.
  intros Hus Hr Hdot. destruct (us =? 0) eqn:E.
  - apply N.eqb_eq in E. subst us. simpl.
    destruct rest as [|c r]; [done|].
    unfold parse_fraction.
    destruct (Ascii.eqb_spec c "."); [by subst|].
    destruct c as [[] [] [] [] [] [] [] []]; done.
  - cbn [app parse_fraction].
    rewrite digits_upto_stop;
      [|apply dec_fixed_digits|rewrite dec_fixed_length; lia|done].
    pose proof (dec_fixed_value 6 us Hus) as Hv.
    pose proof (dec_fixed_length 6 us) as Hl.
    destruct (dec_fixed_cons 5 us) as (c & tl & Ec).
    rewrite Ec in *. unfold micro_value.
    rewrite (take_ge (c :: tl)) by lia.
    rewrite take_app_length' by done. by rewrite Hv.
Qed.

Lemma format_offset_head o :
  ∃ c tl, format_offset o = c :: tl ∧ is_digit c = false ∧ c ≠ ".".
Proof.
  unfold format_offset. destruct (o <? 0)%Z; eexists _, _; done.
Qed.

Lemma parse_tz_format o :
  valid_offset o = true → parse_tz (format_offset o) = Some (Some o).
Proof.
  intros Ho. unfold format_offset.
  set (a := Z.to_N (Z.abs o)).
  assert (Ha : a < 1440).
  { unfold valid_offset in Ho. apply Z.ltb_lt in Ho. unfold a. lia. }
  assert (Hh : a / 60 < 10 ^ N.of_nat 2).
  { apply N.Div0.div_lt_upper_bound. simpl. lia. }
  assert (Hm : a mod 60 < 10 ^ N.of_nat 2).
  { pose proof (N.mod_lt a 60). simpl. lia. }
  assert (Hsum : 60 * (a / 60) + a mod 60 = a) by (symmetry; apply N.div_mod; done).
  destruct (dec_fixed_cons 1 (a mod 60)) as (c & tl & Ec).
  assert (Hstep : ∀ neg,
    parse_offset neg (dec_fixed 2 (a / 60) ++ ":" :: dec_fixed 2 (a mod 60))
    = (let o' := Z.of_N a in
       let o' := if neg then (- o')%Z else o' in
       if valid_offset o' then Some (Some o') else None)).
  { intros neg. unfold parse_offset.
    rewrite digits_n_fixed by done. cbn [mbind option_bind].
    rewrite Ec. cbn [at_end]. rewrite <- Ec.
    rewrite <- (app_nil_r (dec_fixed 2 (a mod 60))).
    rewrite digits_n_fixed by done. cbn [mbind option_bind at_end andb].
    by rewrite Hsum. }
  destruct (o <? 0)%Z eqn:E; cbn [parse_tz]; rewrite Hstep; cbv zeta.
  - apply Z.ltb_lt in E. replace (- Z.of_N a)%Z with o by (unfold a; lia).
    by rewrite Ho.
  - apply Z.ltb_ge in E. replace (Z.of_N a) with o by (unfold a; lia).
    by rewrite Ho.
Qed.

Lemma datetime_of_str_isoformat d : valid d = true → of_str (isoformat d) = Some d.
Proof.
  intros Hv. destruct (valid_bounds d Hv) as (Hy & Hmo & Hd & Hh & Hmi & Hs & Hus & Htz).
  unfold of_str, isoformat.
  rewrite (digits_n_fixed 4) by done. cbn [mbind option_bind expect Ascii.eqb Bool.eqb].
  rewrite (digits_1_fixed 1) by done. cbn [mbind option_bind expect Ascii.eqb Bool.eqb].
  rewrite (digits_1_fixed 1) by done. cbn [mbind option_bind expect Ascii.eqb Bool.eqb orb].
  rewrite (digits_1_fixed 1) by done. cbn [mbind option_bind expect Ascii.eqb Bool.eqb].
  rewrite (digits_1_fixed 1) by done. cbn [mbind option_bind parse_seconds].
  rewrite (digits_1_fixed 1) by done. cbn [mbind option_bind].
  assert (Htail : ∃ tz, tz = match tzinfo d with Some o => format_offset o | None => [] end
            ∧ no_digit_head tz ∧ match tz with "." :: _ => False | _ => True end
            ∧ parse_tz tz = Some (tzinfo d)).
  { eexists; split; [reflexivity|]. destruct (tzinfo d) as [o|].
    - destruct (format_offset_head o) as (c & tl & E & Hc & Hdot).
      split; [|split].
      + by rewrite E.
      + rewrite E. destruct (Ascii.eqb_spec c "."); [done|].
        destruct c as [[] [] [] [] [] [] [] []]; done.
      + by apply parse_tz_format.
    - done. }
  destruct Htail as (tz & <- & Hnd & Hdot & Hptz).
  rewrite parse_fraction_format by done. cbn [mbind option_bind].
  rewrite Hptz. cbn [mbind option_bind].
  destruct d; simpl in *. by rewrite Hv.
Qed.

Lemma isoformat_nonempty d : isoformat d ≠ [].
Proof.
  unfold isoformat. intros H. apply (f_equal length) in H.
  rewrite length_app, dec_fixed_length in H. simpl in H. lia.
Qed.

End Datetimes.

(** ** JSON: decoding an encoding *)

Section JsonScalars.

Import Text Json.







End JsonScalars.

Section JsonValues.

Import Text Json.








Lemma join_cons (p q : list ascii) r :
  join (p :: q :: r) = p ++ "," :: " " :: join (q :: r).
Proof. reflexivity. Qed.


Section Elements.

Variable scan : list ascii → option (value * list ascii).






End Elements.



End JsonValues.

Section JsonRoundTrip.

Import Text Json.











End JsonRoundTrip.

(** ** The wire format of envelopes *)

Section Wire.

Import Envelope.
Local Open Scope string_scope.

Lemma str_items_strings l : str_items (map PyStr l) = inl l.
Proof. induction l as [|s l IH]; simpl; [done|]. by rewrite IH. Qed.


Lemma recipient_validator_value r :
  field recipient_validator None (Some (recipient_value r)) = inl r.
Proof.
  destruct r as [s|l]; [done|].
  unfold field, recipient_validator. cbn [recipient_value str_validator].
  by rewrite str_items_strings.
Qed.






End Wire.

(** ** The validation boundary *)

Section Boundary.

Import Envelope.
Local Open Scope string_scope.

Lemma reject_field d kw name r :
  (name, r) ∈ concat
    [ errors_of "message_id" (field uuid_validator (Some (uuid4 d)) (dict_get "message_id" kw));
      errors_of "ts" (field datetime_validator (Some (utcnow d)) (dict_get "ts" kw));
      errors_of "sender" (field str_validator None (dict_get "sender" kw));
      errors_of "recipient" (field recipient_validator None (dict_get "recipient" kw));
      errors_of "priority" (field priority_validator (Some 3%Z) (dict_get "priority" kw));
      errors_of "kind" (field kind_validator None (dict_get "kind" kw));
      errors_of "content" (field content_validator (Some []) (dict_get "content" kw)) ] →
  rejects d kw name.
Proof.
  intros H. destruct (init_rejects d kw name r H) as (errors & ? & ?).
  exists errors, r. done.
Qed.

Lemma kind_validator_other v :
  (∀ k, k ∈ kinds → v ≠ PyStr k) → v ≠ PyNone → kind_validator v = inr not_permitted.
Proof.
  intros Hv Hn. destruct v as [ |b|z|s|l|l|d|u|d]; try done.
  unfold kind_validator. destruct (is_kind s) eqn:E; [|done].
  unfold is_kind in E. apply existsb_eqb_elem_of in E.
  exfalso. by apply (Hv s).
Qed.

Lemma priority_validator_out z :
  (z < 1 ∨ 5 < z)%Z → priority_validator (PyInt z) = inr out_of_range.
Proof.
  intros Hz. unfold priority_validator.
  destruct (Z.ltb_spec z 1); [done|]. destruct (Z.ltb_spec 5 z); [done|]. lia.
Qed.

(** C4. A priority below 1 or above 5 (so 0, and 6), a kind that is none of
    the four tags, a missing sender and a missing recipient each make the
    construction fail with a validation error that names the field.  When
    a construction succeeds, an omitted priority is 3, an omitted content is
    the empty mapping, and an omitted identifier or timestamp is what its
    factory returned; with the required fields alone the construction does
    succeed.  What the factories return is well formed: a 128-bit UUID and
    a datetime within range have non-empty canonical texts that read back
    as themselves. *)
Theorem validation_boundary (d : defaults) (kw : list (string * value)) :
  (∀ z, dict_get "priority" kw = Some (PyInt z) → (z < 1 ∨ 5 < z)%Z →
     rejects d kw "priority")
  ∧ (∀ v, dict_get "kind" kw = Some v → (∀ k, k ∈ kinds → v ≠ PyStr k) →
     rejects d kw "kind")
  ∧ (dict_get "sender" kw = None → rejects d kw "sender")
  ∧ (dict_get "recipient" kw = None → rejects d kw "recipient")
  ∧ (∀ e, init d kw = inl e →
       (dict_get "priority" kw = None → priority e = 3%Z)
       ∧ (dict_get "content" kw = None → content e = [])
       ∧ (dict_get "message_id" kw = None → message_id e = uuid4 d)
       ∧ (dict_get "ts" kw = None → ts e = utcnow d))
  ∧ (∀ s r k, k ∈ kinds →
       init d [("sender", PyStr s); ("recipient", recipient_value r); ("kind", PyStr k)]
       = inl (mk (uuid4 d) (utcnow d) s r 3 k []))
  ∧ (UUID.valid (uuid4 d) = true →
       UUID.str (uuid4 d) ≠ [] ∧ UUID.of_str (UUID.str (uuid4 d)) = Some (uuid4 d))
  ∧ (Datetime.valid (utcnow d) = true →
       Datetime.isoformat (utcnow d) ≠ []
       ∧ Datetime.of_str (Datetime.isoformat (utcnow d)) = Some (utcnow d)).
Proof.
  repeat apply conj.
  - intros z Hz Hout. apply (reject_field d kw "priority" out_of_range).
    rewrite Hz. cbn [field]. rewrite priority_validator_out by done.
    cbn [errors_of concat].
    rewrite !elem_of_app, elem_of_cons. tauto.
  - intros v Hv Hother.
    assert (E : ∃ r, field kind_validator None (Some v) = inr r).
    { destruct v as [ |b|z|s|l|l|dd|u|dd] eqn:Ev; [by eexists|..];
        exists not_permitted; rewrite <- Ev in *;
        rewrite <- (kind_validator_other v Hother) by (by rewrite Ev);
        by rewrite Ev. }
    destruct E as [r E].
    apply (reject_field d kw "kind" r). rewrite Hv, E. cbn [errors_of concat].
    rewrite !elem_of_app, elem_of_cons. tauto.
  - intros Hs. apply (reject_field d kw "sender" missing). rewrite Hs.
    cbn [field errors_of concat]. rewrite !elem_of_app, elem_of_cons. tauto.
  - intros Hr. apply (reject_field d kw "recipient" missing). rewrite Hr.
    cbn [field errors_of concat]. rewrite !elem_of_app, elem_of_cons. tauto.
  - intros e He. apply init_inl in He as (H1 & H2 & _ & _ & H5 & _ & H7).
    repeat split; intros Hnone; rewrite Hnone in *; simpl in *; congruence.
  - intros s r k Hk. apply init_inl.
    cbn [dict_get String.eqb Ascii.eqb Bool.eqb].
    rewrite recipient_validator_value.
    cbn [field str_validator kind_validator].
    apply existsb_eqb_elem_of in Hk. unfold is_kind. rewrite Hk. done.
  - intros Hu. split; [apply uuid_str_nonempty|by apply uuid_of_str_str].
  - intros Hd. split; [apply isoformat_nonempty|by apply datetime_of_str_isoformat].
Qed.

(** C9 (as amended). An empty sender is accepted: whenever a construction
    succeeds, the same construction with [sender=""] succeeds too, and gives
    the same envelope with the empty string as its sender.  The sender has
    to be supplied; it does not have to be non-empty. *)
Theorem empty_sender_accepted (d : defaults) (kw : list (string * value)) (e : Envelope.t) :
  init d kw = inl e →
  init d (dict_set "sender" (PyStr "") kw) = inl (with_sender "" e).
Proof.
  intros H. apply init_inl in H as (H1 & H2 & H3 & H4 & H5 & H6 & H7).
  apply init_inl. rewrite dict_get_set_eq.
  rewrite !(dict_get_set_ne "sender") by done.
  destruct e; simpl in *. done.
Qed.

Lemma empty_sender_accepted_witness :
  init Sample.factories Sample.request_kwargs = inl Sample.request
  ∧ init Sample.factories (dict_set "sender" (PyStr "") Sample.request_kwargs)
    = inl (with_sender "" Sample.request).
Proof.
  split; [reflexivity|].
  apply (empty_sender_accepted Sample.factories Sample.request_kwargs Sample.request).
  reflexivity.
Defined.

(** C9 as stated fails: a construction whose sender is the empty string
    returns an envelope, not a validation error. *)
Lemma empty_sender_counterexample :
  dict_get "sender" Sample.anonymous_kwargs = Some (PyStr "")
  ∧ init Sample.factories Sample.anonymous_kwargs = inl Sample.anonymous
  ∧ ¬ rejects Sample.factories Sample.anonymous_kwargs "sender".
Proof.
  split; [reflexivity|]. split; [reflexivity|].
  intros (errors & r & H & _). discriminate H.
Qed.

End Boundary.

(** ** The subscription *)

Section Subscription.

Import RedisBus.
Local Open Scope string_scope.

Variable parse_raw : Envelope.defaults → string → Envelope.t + list (string * reason).
Variable host : nat → Envelope.defaults.

Lemma on_messages_cons c m rest :
  on_messages parse_raw host c (m :: rest)
  = ((on_messages parse_raw host (on_message parse_raw host c m).1 rest).1,
     ((on_message parse_raw host c m).2
       ++ (on_messages parse_raw host (on_message parse_raw host c m).1 rest).2)%list).
Proof.
  cbn [on_messages]. destruct (on_message parse_raw host c m) as [c1 ev1].
  cbn [fst snd]. by destruct (on_messages parse_raw host c1 rest).
Qed.

Lemma on_messages_app c xs ys :
  on_messages parse_raw host c (xs ++ ys)%list
  = ((on_messages parse_raw host (on_messages parse_raw host c xs).1 ys).1,
     ((on_messages parse_raw host c xs).2
       ++ (on_messages parse_raw host (on_messages parse_raw host c xs).1 ys).2)%list).
Proof.
  revert c. induction xs as [|x xs IH]; intros c.
  - cbn [app on_messages fst snd]. by destruct (on_messages parse_raw host c ys).
  - rewrite <- app_comm_cons, !on_messages_cons, IH. cbn [fst snd].
    by rewrite app_assoc.
Qed.

Lemma on_message_last_id c m :
  last_id (on_message parse_raw host c m).1 = At (fst m).
Proof.
  destruct m as [id data]. unfold on_message.
  destruct (data !! "data") as [raw|]; [|done].
  by destruct (parse_raw _ raw).
Qed.

(** After a batch, [last_id] is the identifier of the batch's last entry,
    whatever became of the entries. *)
Lemma on_messages_last_id c messages m :
  last messages = Some m →
  last_id (on_messages parse_raw host c messages).1 = At (fst m).
Proof.
  intros Hlast. apply last_Some in Hlast as [front ->].
  rewrite on_messages_app. cbn [fst]. rewrite on_messages_cons. cbn [on_messages fst].
  apply on_message_last_id.
Qed.

Lemma on_streams_single c key messages :
  on_streams parse_raw host c [(key, messages)] = on_messages parse_raw host c messages.
Proof.
  cbn [on_streams]. destruct (on_messages parse_raw host c messages) as [c1 ev1].
  by rewrite app_nil_r.
Qed.

Lemma subscribe_cons key c log0 log1 rest :
  subscribe parse_raw host key c log0 (log1 :: rest)
  = let r := on_streams parse_raw host c (xread key (last_id c) log0 log1) in
    ((subscribe parse_raw host key r.1 log1 rest).1,
     (r.2 ++ (subscribe parse_raw host key r.1 log1 rest).2)%list).
Proof.
  cbn [subscribe]. destruct (on_streams _ _ _ _) as [c1 ev1]. cbn [fst snd].
  by destruct (subscribe parse_raw host key c1 log1 rest).
Qed.

(** C8. An entry without the "data" field moves the cursor to its
    identifier and produces no event: it is not yielded and nothing is
    printed; the rest of the batch is processed as if the entry had not been
    there, from that cursor. *)
Theorem empty_payload_skipped (c : cursor) (id : entry_id) (data : gmap string string)
    (rest : list entry) :
  data !! "data" = None →
  on_message parse_raw host c (id, data) = (mk_cursor (At id) (clock c), [])
  ∧ on_messages parse_raw host c ((id, data) :: rest)
    = on_messages parse_raw host (mk_cursor (At id) (clock c)) rest.
Proof.
  intros Hno.
  assert (E : on_message parse_raw host c (id, data) = (mk_cursor (At id) (clock c), [])).
  { unfold on_message. by rewrite Hno. }
  split; [exact E|].
  rewrite on_messages_cons, E. cbn [fst snd app].
  by destruct (on_messages parse_raw host _ rest).
Qed.

(** C6. An entry whose payload does not deserialize produces one printed
    line, which carries the failure, and no envelope; the cursor moves to
    the entry's identifier.  Nothing is raised: the rest of the batch is
    processed from that cursor, so a following entry whose payload
    deserializes is yielded, and when the entry is a batch of its own the
    subscription goes on with the next read. *)
Theorem malformed_entry_skipped (c : cursor) (id : entry_id) (data : gmap string string)
    (raw : string) (errors : list (string * reason)) :
  data !! "data" = Some raw →
  parse_raw (host (clock c)) raw = inr errors →
  let line := [Lit "[RedisBus] Failed to parse envelope: "; Exc (ValidationError errors)] in
  let c' := mk_cursor (At id) (S (clock c)) in
  on_message parse_raw host c (id, data) = (c', [Print line])
  ∧ (∀ rest,
       on_messages parse_raw host c ((id, data) :: rest)
       = ((on_messages parse_raw host c' rest).1,
          Print line :: (on_messages parse_raw host c' rest).2))
  ∧ (∀ id' data' raw' envelope rest,
       data' !! "data" = Some raw' →
       parse_raw (host (S (clock c))) raw' = inl envelope →
       ∃ c'' evs,
         on_messages parse_raw host c ((id, data) :: (id', data') :: rest)
         = (c'', Print line :: Yield envelope :: evs))
  ∧ (∀ key log0 log1 logs,
       xread key (last_id c) log0 log1 = [(key, [(id, data)])] →
       subscribe parse_raw host key c log0 (log1 :: logs)
       = ((subscribe parse_raw host key c' log1 logs).1,
          Print line :: (subscribe parse_raw host key c' log1 logs).2)).
Proof.
  intros Hraw Herr line c'.
  assert (E : on_message parse_raw host c (id, data) = (c', [Print line])).
  { unfold on_message. rewrite Hraw. cbn [clock last_id]. by rewrite Herr. }
  split; [exact E|]. split; [|split].
  - intros rest. by rewrite on_messages_cons, E.
  - intros id' data' raw' envelope rest Hraw' Hok.
    rewrite on_messages_cons, E. cbn [fst snd]. rewrite on_messages_cons.
    assert (E' : on_message parse_raw host c' (id', data')
                 = (mk_cursor (At id') (S (S (clock c))), [Yield envelope])).
    { unfold on_message, c'. rewrite Hraw'. cbn [clock last_id]. by rewrite Hok. }
    rewrite E'. cbn [fst snd app]. eauto.
  - intros key log0 log1 logs Hread.
    rewrite subscribe_cons, Hread. cbv zeta.
    rewrite on_streams_single. cbn [on_messages]. rewrite E. done.
Qed.

End Subscription.

Lemma empty_payload_skipped_witness :
  Scenario.blank !! "data"%string = None
  ∧ RedisBus.on_message Envelope.parse_raw (host Scenario.quiet)
      (RedisBus.mk_cursor RedisBus.Dollar 0) ((1000, 1), Scenario.blank)
    = (RedisBus.mk_cursor (RedisBus.At (1000, 1)) 0, []).
Proof.
  split; [reflexivity|].
  apply (empty_payload_skipped Envelope.parse_raw (host Scenario.quiet)
           (RedisBus.mk_cursor RedisBus.Dollar 0) (1000, 1) Scenario.blank []).
  reflexivity.
Defined.

Lemma malformed_entry_skipped_witness :
  Scenario.garbled !! "data"%string = Some "not json"%string
  ∧ Envelope.parse_raw (host Scenario.quiet 0) "not json" = inr [("__root__"%string, wrong_type)]
  ∧ RedisBus.on_message Envelope.parse_raw (host Scenario.quiet)
      (RedisBus.mk_cursor RedisBus.Dollar 0) ((1005, 0), Scenario.garbled)
    = (RedisBus.mk_cursor (RedisBus.At (1005, 0)) 1,
       [RedisBus.Print [Lit "[RedisBus] Failed to parse envelope: ";
                        Exc (ValidationError [("__root__"%string, wrong_type)])]]).
Proof.
  split; [reflexivity|]. split; [reflexivity|].
  apply (malformed_entry_skipped Envelope.parse_raw (host Scenario.quiet)
           (RedisBus.mk_cursor RedisBus.Dollar 0) (1005, 0) Scenario.garbled
           "not json" [("__root__"%string, wrong_type)]); reflexivity.
Defined.

(** ** Publishing *)

Section Publishing.

Local Open Scope string_scope.

Lemma log_of_xadd key fields w :
  Redis.log_of key (Redis.xadd key fields w)
  = (Redis.log_of key w ++ [(Redis.next_id (server_ms w) (Redis.log_of key w), fields)])%list.
Proof.
  unfold Redis.xadd, Redis.log_of. cbn [broker set_broker].
  by rewrite lookup_insert_eq.
Qed.





End Publishing.

(** ** Dispatch *)

Section Dispatch.

Import BaseAgent.
Local Open Scope string_scope.

Variable parse_raw : Envelope.defaults → string → Envelope.t + list (string * reason).

Lemma on_events_tasks self evs w tasks :
  (on_events self evs (w, tasks)).2
  = (tasks ++ List.filter (_should_handle self) (RedisBus.yielded evs))%list.
Proof.
  revert w tasks. induction evs as [|ev evs IH]; intros w tasks.
  - cbn. by rewrite app_nil_r.
  - change (on_events self (ev :: evs) (w, tasks))
      with (on_events self evs (on_event self ev (w, tasks))).
    destruct ev as [e|l].
    + change (RedisBus.yielded (RedisBus.Yield e :: evs)) with (e :: RedisBus.yielded evs).
      cbn [on_event List.filter]. destruct (_should_handle self e).
      * rewrite IH. by rewrite <- app_assoc.
      * by rewrite IH.
    + change (RedisBus.yielded (RedisBus.Print l :: evs)) with (RedisBus.yielded evs).
      cbn [on_event]. by rewrite IH.
Qed.



End Dispatch.



(** ** Reading the log *)

Section Order.

Import Redis.

Lemma id_lt_spec (a b : entry_id) :
  id_lt a b = true ↔ (fst a < fst b ∨ (fst a = fst b ∧ snd a < snd b)).
Proof.
  unfold id_lt. rewrite orb_true_iff, andb_true_iff, !N.ltb_lt, N.eqb_eq. done.
Qed.

Lemma id_lt_false (a b : entry_id) :
  id_lt a b = false ↔ ¬ (fst a < fst b ∨ (fst a = fst b ∧ snd a < snd b)).
Proof. rewrite <- id_lt_spec. by destruct (id_lt a b). Qed.

Lemma id_lt_trans a b c : id_lt a b = true → id_lt b c = true → id_lt a c = true.
Proof. rewrite !id_lt_spec. lia. Qed.

Lemma id_lt_asym a b : id_lt a b = true → id_lt b a = false.
Proof. rewrite id_lt_spec, id_lt_false. lia. Qed.

Lemma id_lt_irrefl a : id_lt a a = false.
Proof. rewrite id_lt_false. lia. Qed.

Lemma id_lt_total a b : id_lt a b = false → id_lt b a = false → a = b.
Proof.
  rewrite !id_lt_false. destruct a as [a1 a2], b as [b1 b2]. simpl.
  intros H1 H2. f_equal; lia.
Qed.

Lemma after_app t xs ys : after t (xs ++ ys) = after t xs ++ after t ys.
Proof. apply List.filter_app. Qed.

Lemma after_all t l : (∀ m, m ∈ l → id_lt t (fst m) = true) → after t l = l.
Proof.
  intros H. apply filter_keeps_all. apply Forall_forall. exact H.
Qed.

Lemma after_none t l : (∀ m, m ∈ l → id_lt t (fst m) = false) → after t l = [].
Proof.
  induction l as [|x l IH]; intros H; [done|]. simpl.
  rewrite (H x) by (apply elem_of_cons; by left).
  apply IH. intros m Hm. apply H. apply elem_of_cons. by right.
Qed.

Lemma after_elem t l m : m ∈ after t l → m ∈ l ∧ id_lt t (fst m) = true.
Proof.
  unfold after. rewrite !list_elem_of_In, filter_In. done.
Qed.

Lemma top_snoc l m : top (l ++ [m]) = fst m.
Proof. unfold top. by rewrite last_snoc. Qed.

Lemma increasing_top log m :
  increasing log → m ∈ log → id_lt (top log) (fst m) = false.
Proof.
  intros Hinc Hm. destruct (last log) as [x|] eqn:E.
  - apply last_Some in E as [l' ->]. rewrite top_snoc.
    apply elem_of_app in Hm as [Hm|Hm].
    + apply id_lt_asym.
      apply (StronglySorted_app_1_elem_of before l' [x] m x Hinc Hm).
      apply elem_of_cons. by left.
    + apply list_elem_of_singleton in Hm as ->. apply id_lt_irrefl.
  - apply last_None in E. subst. by apply elem_of_nil in Hm.
Qed.

Lemma last_after t log :
  increasing log → after t log ≠ [] → last (after t log) = last log.
Proof.
  intros Hinc Hne. destruct (last log) as [x|] eqn:E.
  - apply last_Some in E as [l' ->]. rewrite after_app in *.
    destruct (id_lt t (fst x)) eqn:Hx.
    + cbn [after List.filter]. rewrite Hx. apply last_snoc.
    + exfalso. cbn [after List.filter] in Hne. rewrite Hx, app_nil_r in Hne.
      destruct (after t l') as [|m ms] eqn:Em; [done|].
      assert (Hm : m ∈ after t l') by (rewrite Em; apply elem_of_cons; by left).
      apply after_elem in Hm as [Hm Hlt].
      assert (Hb : before m x).
      { apply (StronglySorted_app_1_elem_of before l' [x] m x Hinc Hm).
        apply elem_of_cons. by left. }
      rewrite (id_lt_trans _ _ _ Hlt Hb) in Hx. done.
  - apply last_None in E. subst. done.
Qed.

(** While nothing newer than its last entry is in the log, the log's last
    identifier does not change. *)
Lemma top_stable log0 log1 :
  log0 `prefix_of` log1 → increasing log1 → after (top log0) log1 = [] →
  top log1 = top log0.
Proof.
  intros [n1 ->] Hinc Hnone.
  destruct (last n1) as [x|] eqn:E.
  - apply last_Some in E as [n' ->].
    rewrite app_assoc, top_snoc.
    assert (Hx : id_lt (top log0) (fst x) = false).
    { destruct (id_lt (top log0) (fst x)) eqn:Hlt; [|done]. exfalso.
      rewrite app_assoc, after_app in Hnone. cbn [after List.filter] in Hnone.
      rewrite Hlt in Hnone. by destruct (after (top log0) (log0 ++ n')). }
    destruct (last log0) as [y|] eqn:Ey.
    + exfalso. pose proof Ey as [l0 ->]%last_Some. rewrite top_snoc in Hx.
      assert (Hb : before y x).
      { apply (StronglySorted_app_1_elem_of before (l0 ++ [y]) (n' ++ [x]) y x Hinc).
        - apply elem_of_app. right. apply elem_of_cons. by left.
        - apply elem_of_app. right. apply elem_of_cons. by left. }
      unfold before in Hb. by rewrite Hb in Hx.
    + unfold top in *. rewrite Ey in *.
      apply id_lt_total; [|exact Hx].
      rewrite id_lt_false. destruct x as [[x1 x2] f]. simpl. lia.
  - apply last_None in E. subst. by rewrite app_nil_r.
Qed.

End Order.

Section Reading.

Import Redis RedisBus.

Variable parse_raw : Envelope.defaults → string → Envelope.t + list (string * reason).
Variable host : nat → Envelope.defaults.

(** One read: what was to be read from the start position is what this
    read returns, then what is to be read from the new position. *)
Lemma read_step key c log0 log1 log2 :
  log0 `prefix_of` log1 → log1 `prefix_of` log2 → increasing log2 →
  let streams := xread key (last_id c) log0 log1 in
  after (resolve (last_id c) log0) log2
  = concat (map snd streams)
    ++ after (resolve (last_id (on_streams parse_raw host c streams).1) log1) log2.
Proof.
  intros H01 H12 Hinc streams.
  assert (Hinc1 : increasing log1).
  { destruct H12 as [n2 ->]. by apply StronglySorted_app_1_l in Hinc. }
  unfold streams, xread. set (s := resolve (last_id c) log0).
  destruct (after s log1) as [|m0 ms] eqn:Ems.
  - cbn [on_streams map concat fst app].
    destruct (last_id c) as [|i] eqn:Ec; [|done].
    cbn [resolve] in *. by rewrite (top_stable log0 log1).
  - rewrite on_streams_single. cbn [map concat snd]. rewrite app_nil_r.
    assert (Hne : after s log1 ≠ []) by (by rewrite Ems).
    pose proof (last_after s log1 Hinc1 Hne) as Hlast. rewrite Ems in Hlast.
    destruct (last log1) as [x|] eqn:Ex;
      [|apply last_None in Ex; subst; done].
    rewrite (on_messages_last_id parse_raw host c (m0 :: ms) x Hlast).
    cbn [resolve].
    assert (Hx : x ∈ log1) by (by apply last_Some_elem_of).
    assert (Htop : top log1 = fst x) by (unfold top; by rewrite Ex).
    assert (Hsx : id_lt s (fst x) = true).
    { assert (Hin : x ∈ after s log1).
      { rewrite Ems. by apply last_Some_elem_of. }
      by apply after_elem in Hin as [_ ?]. }
    destruct H12 as [n2 ->]. rewrite !after_app, Ems.
    rewrite (after_none (fst x) log1).
    + cbn [app]. f_equal. f_equal.
      rewrite !after_all; [done| |];
        intros m Hm;
        pose proof (StronglySorted_app_1_elem_of before log1 n2 x m Hinc Hx Hm) as Hb.
      * exact Hb.
      * by apply (id_lt_trans _ _ _ Hsx).
    + intros m Hm. rewrite <- Htop. by apply increasing_top.
Qed.

Lemma final_cons (log0 log1 : list entry) rest :
  default log0 (last (log1 :: rest)) = default log1 (last rest).
Proof. rewrite last_cons. by destruct (last rest). Qed.

Lemma grows_prefix log0 logs :
  grows log0 logs → log0 `prefix_of` default log0 (last logs).
Proof.
  revert log0. induction logs as [|log1 rest IH]; intros log0 Hg; [done|].
  destruct Hg as [H01 Hg]. rewrite final_cons.
  etransitivity; [exact H01|]. by apply IH.
Qed.

Lemma consumed_cons key c log0 log1 rest :
  consumed parse_raw host key c log0 (log1 :: rest)
  = concat (map snd (xread key (last_id c) log0 log1))
    ++ consumed parse_raw host key
         (on_streams parse_raw host c (xread key (last_id c) log0 log1)).1 log1 rest.
Proof. reflexivity. Qed.

Lemma cursor_after_cons key c log0 log1 rest :
  cursor_after parse_raw host key c log0 (log1 :: rest)
  = cursor_after parse_raw host key
      (on_streams parse_raw host c (xread key (last_id c) log0 log1)).1 log1 rest.
Proof.
  unfold cursor_after. rewrite subscribe_cons. reflexivity.
Qed.

Lemma xread_entries key pos log0 log1 :
  concat (map snd (xread key pos log0 log1)) = after (resolve pos log0) log1.
Proof.
  unfold xread. destruct (after (resolve pos log0) log1); [done|].
  cbn [map concat snd]. by rewrite app_nil_r.
Qed.

Lemma consumed_spec key rest :
  ∀ c log0 log1,
  grows log0 (log1 :: rest) → increasing (default log1 (last rest)) →
  consumed parse_raw host key c log0 (log1 :: rest)
  = after (resolve (last_id c) log0) (default log1 (last rest)).
Proof.
  induction rest as [|log2 rest IH]; intros c log0 log1 [H01 Hg] Hinc;
    rewrite consumed_cons.
  - cbn [consumed last default] in *. rewrite app_nil_r. apply xread_entries.
  - destruct Hg as [H12 Hg]. rewrite final_cons in *.
    rewrite (IH _ log1 log2) by done.
    symmetry. apply read_step; [done| |done].
    rewrite <- (final_cons log1 log2 rest). apply grows_prefix. done.
Qed.

Lemma cursor_spec key logs :
  ∀ c log0,
  match last (consumed parse_raw host key c log0 logs) with
  | Some m => last_id (cursor_after parse_raw host key c log0 logs) = At (fst m)
  | None => last_id (cursor_after parse_raw host key c log0 logs) = last_id c
  end.
Proof.
  induction logs as [|log1 rest IH]; intros c log0; [done|].
  rewrite consumed_cons, cursor_after_cons, last_app.
  set (streams := xread key (last_id c) log0 log1).
  specialize (IH (on_streams parse_raw host c streams).1 log1).
  destruct (last (consumed parse_raw host key _ log1 rest)) as [m|]; [done|].
  rewrite IH. unfold streams, xread.
  destruct (after (resolve (last_id c) log0) log1) as [|m0 ms] eqn:E; [done|].
  rewrite on_streams_single. cbn [map concat snd]. rewrite app_nil_r.
  destruct (last (m0 :: ms)) as [m|] eqn:El.
  - by apply on_messages_last_id.
  - by apply last_None in El.
Qed.

(** C7. After a batch is processed the cursor is at the identifier of the
    batch's last entry, whether its entries were yielded or skipped; and
    over any number of blocking reads of a growing log, the entries read
    are exactly the entries of the log after the start position, each once
    and in the log's order, the cursor ending at the last of them. *)
Theorem cursor_tracks_last_entry (key : string) (c : cursor) (log0 log1 : list entry)
    (rest : list (list entry)) :
  grows log0 (log1 :: rest) →
  increasing (default log1 (last rest)) →
  (∀ c' messages m, last messages = Some m →
     last_id (on_messages parse_raw host c' messages).1 = At (fst m))
  ∧ consumed parse_raw host key c log0 (log1 :: rest)
    = after (resolve (last_id c) log0) (default log1 (last rest))
  ∧ match last (consumed parse_raw host key c log0 (log1 :: rest)) with
    | Some m =>
        last_id (cursor_after parse_raw host key c log0 (log1 :: rest)) = At (fst m)
    | None =>
        last_id (cursor_after parse_raw host key c log0 (log1 :: rest)) = last_id c
    end.
Proof.
  intros Hg Hinc. split; [|split].
  - intros c' messages m. apply on_messages_last_id.
  - by apply consumed_spec.
  - apply cursor_spec.
Qed.

End Reading.

Lemma cursor_tracks_last_entry_witness :
  RedisBus.grows [] [Scenario.log1; Scenario.log2; Scenario.log3]
  ∧ Redis.increasing Scenario.log3
  ∧ RedisBus.consumed Envelope.parse_raw (host Scenario.quiet) "conceptualize-bus"
      (RedisBus.mk_cursor RedisBus.Dollar 0) []
      [Scenario.log1; Scenario.log2; Scenario.log3]
    = Scenario.log3.
Proof.
  assert (Hg : RedisBus.grows [] [Scenario.log1; Scenario.log2; Scenario.log3]).
  { repeat split.
    - by exists Scenario.log1.
    - by exists [((1000, 1), Scenario.blank)].
    - by exists [((1005, 0), Scenario.garbled)]. }
  assert (Hi : Redis.increasing Scenario.log3).
  { repeat constructor. }
  split; [exact Hg|]. split; [exact Hi|].
  destruct (cursor_tracks_last_entry Envelope.parse_raw (host Scenario.quiet)
              "conceptualize-bus" (RedisBus.mk_cursor RedisBus.Dollar 0) []
              Scenario.log1 [Scenario.log2; Scenario.log3] Hg Hi) as (_ & Hc & _).
  exact Hc.
Defined.

(** ** What the constructor guarantees *)

Section Accepted.

Import Envelope.
Local Open Scope string_scope.

(** A field that passes either took its default or passed its validator
    on a value that is not [None]. *)
Lemma field_inl {A} (validator : value → result A) default arg a :
  field validator default arg = inl a →
  (arg = None ∧ default = Some a)
  ∨ (∃ v, arg = Some v ∧ v ≠ PyNone ∧ validator v = inl a).
Proof.
  unfold field. destruct arg as [v|].
  - intros H. right. exists v.
    destruct v; try discriminate H; (split; [reflexivity|split; [discriminate|exact H]]).
  - destruct default as [a'|]; [|discriminate]. intros [= ->]. by left.
Qed.

Lemma priority_validator_range v z : priority_validator v = inl z → (1 ≤ z ≤ 5)%Z.
Proof.
  assert (Hb : ∀ x : Z,
    (if (x <? 1)%Z then inr out_of_range
     else if (5 <? x)%Z then inr out_of_range else inl x) = (inl z : result Z) →
    (1 ≤ z ≤ 5)%Z).
  { intros x. destruct (Z.ltb_spec x 1); [done|]. destruct (Z.ltb_spec 5 x); [done|].
    intros [= <-]. lia. }
  unfold priority_validator. destruct v; cbv zeta; try discriminate; apply Hb.
Qed.

Lemma kind_validator_kind v k : kind_validator v = inl k → is_kind k = true.
Proof.
  destruct v; try discriminate. unfold kind_validator.
  destruct (is_kind s) eqn:E; [|discriminate]. by intros [= <-].
Qed.

Lemma field_priority_range arg z :
  field priority_validator (Some 3%Z) arg = inl z → (1 ≤ z ≤ 5)%Z.
Proof.
  intros Hp. apply field_inl in Hp as [[_ [= <-]]|(v & _ & _ & Hv)]; [lia|].
  by apply priority_validator_range in Hv.
Qed.

Lemma field_kind_permitted arg k :
  field kind_validator None arg = inl k → is_kind k = true.
Proof.
  intros Hk. apply field_inl in Hk as [[_ [=]]|(v & _ & _ & Hv)].
  by apply kind_validator_kind in Hv.
Qed.

(** X1. Whatever the keyword arguments, an envelope that the constructor
    returns has a priority from 1 to 5 and a kind that is one of the four
    tags. *)
Theorem constructed_within_constraints (d : defaults) (kw : list (string * value))
    (e : Envelope.t) :
  init d kw = inl e → (1 ≤ priority e ≤ 5)%Z ∧ kind e ∈ kinds.
Proof.
  intros H. apply init_inl in H as (_ & _ & _ & _ & Hp & Hk & _). split.
  - by apply field_priority_range in Hp.
  - apply field_kind_permitted in Hk. by apply existsb_eqb_elem_of.
Qed.

Lemma constructed_within_constraints_witness :
  init Sample.factories Sample.request_kwargs = inl Sample.request
  ∧ (1 ≤ priority Sample.request ≤ 5)%Z ∧ kind Sample.request ∈ kinds.
Proof.
  split; [reflexivity|].
  apply (constructed_within_constraints Sample.factories Sample.request_kwargs).
  reflexivity.
Defined.

Lemma field_name_ne k name : k ∉ fields → name ∈ fields → k ≠ name.
Proof. intros Hk Hn ->. done. Qed.

(** X2. A keyword that is not the name of a field is ignored: setting it,
    to any value, changes neither the envelope constructed nor the failure
    reported.  (So a misspelt optional field is not reported: the field
    takes its default.) *)
Theorem unknown_keyword_ignored (d : defaults) (kw : list (string * value))
    (k : string) (v : value) :
  k ∉ fields → init d (dict_set k v kw) = init d kw.
Proof.
  intros Hk. unfold init.
  rewrite !(dict_get_set_ne k)
    by (apply (field_name_ne k _ Hk); unfold fields; rewrite !elem_of_cons; tauto).
  reflexivity.
Qed.

Lemma unknown_keyword_ignored_witness :
  ("priorty" ∉ fields)
  ∧ init Sample.factories (dict_set "priorty" (PyInt 1) Sample.anonymous_kwargs)
    = init Sample.factories Sample.anonymous_kwargs.
Proof.
  assert (H : "priorty" ∉ fields).
  { unfold fields. rewrite !elem_of_cons, elem_of_nil.
    intros [?|[?|[?|[?|[?|[?|[?|[]]]]]]]]; discriminate. }
  split; [exact H|].
  apply (unknown_keyword_ignored Sample.factories Sample.anonymous_kwargs
           "priorty" (PyInt 1) H).
Defined.

(** X3. No field accepts [None], the fields that have a default included:
    a keyword argument that is [None] makes the construction fail with a
    validation error that names the field, instead of the default being
    taken. *)
Theorem explicit_none_rejected (d : defaults) (kw : list (string * value))
    (name : string) :
  name ∈ fields → dict_get name kw = Some PyNone → rejects d kw name.
Proof.
  intros Hn Hnone. apply (reject_field d kw name none_not_allowed).
  unfold fields in Hn. rewrite !elem_of_cons, elem_of_nil in Hn.
  destruct Hn as [->|[->|[->|[->|[->|[->|[->|[]]]]]]]];
    rewrite Hnone; cbn [field errors_of concat];
    rewrite !elem_of_app, elem_of_cons; tauto.
Qed.

Lemma explicit_none_rejected_witness :
  "priority" ∈ fields
  ∧ dict_get "priority" (dict_set "priority" PyNone Sample.request_kwargs) = Some PyNone
  ∧ rejects Sample.factories (dict_set "priority" PyNone Sample.request_kwargs) "priority".
Proof.
  assert (H : "priority" ∈ fields).
  { unfold fields. rewrite !elem_of_cons. tauto. }
  split; [exact H|]. split; [reflexivity|].
  apply (explicit_none_rejected Sample.factories
           (dict_set "priority" PyNone Sample.request_kwargs) "priority" H).
  reflexivity.
Defined.

End Accepted.

(** ** What comes off the wire *)

Section Decoded.

Import Envelope.
Local Open Scope string_scope.





Section Scanned.

Variable P : value → Prop.
Variable scan : list ascii → option (value * list ascii).
Hypothesis scan_P : ∀ s v r, scan s = Some (v, r) → P v.



End Scanned.















End Decoded.

(** ** The client of a bus *)

Section Client.

Import RedisBus.
Local Open Scope string_scope.

Lemma clients_connected self n : ∀ k client,
  _redis k = Some client → clients self n k = (replicate n client, k).
Proof.
  induction n as [|n IH]; intros k client Hk; [done|].
  cbn [clients]. unfold _ensure_conn. rewrite Hk, (IH k client Hk). done.
Qed.

(** X6. A bus makes its client on the first use and keeps it: however
    many times the bus is used after that, [aioredis.from_url] has been
    called once, with the bus's URL, and every use has obtained that one
    client. *)
Theorem one_client_per_bus (self : RedisBus.t) (n : nat) (k : link) :
  _redis k = None →
  clients self (S n) k
  = (replicate (S n) (length (opened k)),
     mk_link (Some (length (opened k))) (opened k ++ [_url self])).
Proof.
  intros Hk. cbn [clients]. unfold _ensure_conn at 1. rewrite Hk. cbv zeta.
  by rewrite (clients_connected self n _ (length (opened k))).
Qed.

Lemma one_client_per_bus_witness :
  _redis (mk_link None []) = None
  ∧ clients RedisBus.new 3 (mk_link None [])
    = ([0; 0; 0]%nat, mk_link (Some 0%nat) ["redis://localhost:6379"]).
Proof.
  split; [reflexivity|].
  apply (one_client_per_bus RedisBus.new 2 (mk_link None [])). reflexivity.
Defined.

End Client.

(** ** The events of a subscription *)

Section Events.

Import Redis RedisBus.
Local Open Scope string_scope.

Variable parse_raw : Envelope.defaults → string → Envelope.t + list (string * reason).
Variable host : nat → Envelope.defaults.

Lemma on_message_count c m :
  length (on_message parse_raw host c m).2 = (if has_data m then 1 else 0)%nat
  ∧ clock (on_message parse_raw host c m).1
    = (clock c + (if has_data m then 1 else 0))%nat.
Proof.
  destruct m as [id data]. unfold on_message, has_data. cbn [snd].
  destruct (data !! "data") as [raw|].
  - destruct (parse_raw _ raw); cbn [fst snd clock last_id length]; split; lia.
  - cbn [fst snd clock length]. split; lia.
Qed.

Lemma yielded_length evs : (length (yielded evs) ≤ length evs)%nat.
Proof.
  induction evs as [|[e|l] evs IH]; [done| |].
  - change (yielded (Yield e :: evs)) with (e :: yielded evs). simpl. lia.
  - change (yielded (Print l :: evs)) with (yielded evs). simpl. lia.
Qed.

Lemma filter_length {A} (f : A → bool) l : (length (List.filter f l) ≤ length l)%nat.
Proof. induction l as [|x l IH]; simpl; [done|]. destruct (f x); simpl; lia. Qed.

(** X7. A batch produces exactly one event for each of its entries that
    has the "data" field (an envelope or a printed failure) and none for the
    others; the default factories are consulted once per such entry; so a
    batch never yields more envelopes than it has entries. *)
Theorem one_event_per_payload (c : cursor) (messages : list entry) :
  length (on_messages parse_raw host c messages).2
    = length (List.filter has_data messages)
  ∧ clock (on_messages parse_raw host c messages).1
    = (clock c + length (List.filter has_data messages))%nat
  ∧ (length (yielded (on_messages parse_raw host c messages).2) ≤ length messages)%nat.
Proof.
  assert (H : ∀ ms c,
    length (on_messages parse_raw host c ms).2 = length (List.filter has_data ms)
    ∧ clock (on_messages parse_raw host c ms).1
      = (clock c + length (List.filter has_data ms))%nat).
  { induction ms as [|m ms IH]; intros c0.
    - cbn [on_messages fst snd List.filter length]. split; lia.
    - rewrite on_messages_cons. cbn [fst snd List.filter]. rewrite length_app.
      destruct (on_message_count c0 m) as [Hl Hc].
      destruct (IH (on_message parse_raw host c0 m).1) as [IHl IHc].
      rewrite Hl, IHl, IHc, Hc. destruct (has_data m); cbn [length]; split; lia. }
  destruct (H messages c) as [Hl Hc]. split; [exact Hl|]. split; [exact Hc|].
  etransitivity; [apply yielded_length|]. rewrite Hl. apply filter_length.
Qed.


Lemma increasing_prefix log0 log1 :
  log0 `prefix_of` log1 → increasing log1 → increasing log0.
Proof. intros [new ->] H. by apply StronglySorted_app_1_l in H. Qed.

Lemma id_lt_origin (i : entry_id) : i ≠ (0, 0) → id_lt (0, 0) i = true.
Proof.
  intros Hi. apply id_lt_spec. destruct i as [a b]. cbn [fst snd].
  destruct (N.eq_dec a 0) as [->|Ha]; [|lia].
  destruct (N.eq_dec b 0) as [->|Hb]; [done|lia].
Qed.

(** X9. A subscription started at ["$"] never replays what was in the
    stream before it began: over any number of blocking reads of a growing
    log, the entries read are exactly the entries appended after the first
    read was issued.  (Identifiers are those a Redis server gives: ordered,
    and never [0-0].) *)
Theorem fresh_subscription_skips_history (key : string) (c : cursor)
    (log0 log1 : list entry) (rest : list (list entry)) :
  last_id c = Dollar →
  grows log0 (log1 :: rest) →
  increasing (default log1 (last rest)) →
  (∀ m, m ∈ default log1 (last rest) → fst m ≠ (0, 0)) →
  consumed parse_raw host key c log0 (log1 :: rest)
  = drop (length log0) (default log1 (last rest)).
Proof.
  intros Hc Hg Hinc Hids. rewrite consumed_spec by done. rewrite Hc. cbn [resolve].
  pose proof (grows_prefix log0 (log1 :: rest) Hg) as Hpre. rewrite final_cons in Hpre.
  pose proof (increasing_prefix _ _ Hpre Hinc) as Hinc0.
  destruct Hpre as [new Hnew]. rewrite Hnew in *.
  rewrite after_app, drop_app_length.
  rewrite (after_none (top log0) log0) by (intros m Hm; by apply increasing_top).
  cbn [app]. apply after_all. intros m Hm.
  destruct (last log0) as [x|] eqn:Ex.
  - unfold top. rewrite Ex.
    apply (StronglySorted_app_1_elem_of before log0 new x m Hinc); [|done].
    by apply last_Some_elem_of.
  - unfold top. rewrite Ex. apply id_lt_origin, Hids.
    apply elem_of_app. by right.
Qed.

(** X10. A subscription started at the identifier of an entry of the
    stream reads exactly the entries behind that entry, each once and in
    order: a consumer that resumes from the last identifier it saw loses
    nothing and sees nothing twice. *)
Theorem resumed_subscription_exact (key : string) (c : cursor)
    (log0 log1 : list entry) (rest : list (list entry))
    (seen : list entry) (m : entry) (later : list entry) :
  last_id c = At (fst m) →
  grows log0 (log1 :: rest) →
  increasing (default log1 (last rest)) →
  default log1 (last rest) = (seen ++ m :: later)%list →
  consumed parse_raw host key c log0 (log1 :: rest) = later.
Proof.
  intros Hc Hg Hinc Hfinal. rewrite consumed_spec by done. rewrite Hc. cbn [resolve].
  rewrite Hfinal in *. rewrite after_app.
  rewrite (after_none (fst m) seen).
  - cbn [app after List.filter]. rewrite id_lt_irrefl.
    apply after_all. intros x Hx.
    apply (StronglySorted_app_1_elem_of before (seen ++ [m]) later m x).
    + by rewrite <- app_assoc.
    + apply elem_of_app. right. by apply list_elem_of_singleton.
    + done.
  - intros x Hx. apply id_lt_asym.
    apply (StronglySorted_app_1_elem_of before seen (m :: later) x m Hinc Hx).
    apply elem_of_cons. by left.
Qed.

End Events.

Lemma fresh_subscription_skips_history_witness :
  RedisBus.last_id (RedisBus.mk_cursor RedisBus.Dollar 0) = RedisBus.Dollar
  ∧ RedisBus.grows Scenario.log1 [Scenario.log2; Scenario.log3]
  ∧ Redis.increasing Scenario.log3
  ∧ (∀ m, m ∈ Scenario.log3 → fst m ≠ (0, 0))
  ∧ RedisBus.consumed Envelope.parse_raw (host Scenario.quiet) "conceptualize-bus"
      (RedisBus.mk_cursor RedisBus.Dollar 0) Scenario.log1
      [Scenario.log2; Scenario.log3]
    = [((1000, 1), Scenario.blank); ((1005, 0), Scenario.garbled)].
Proof.
  assert (Hg : RedisBus.grows Scenario.log1 [Scenario.log2; Scenario.log3]).
  { repeat split.
    - by exists [((1000, 1), Scenario.blank)].
    - by exists [((1005, 0), Scenario.garbled)]. }
  assert (Hi : Redis.increasing Scenario.log3).
  { repeat constructor. }
  assert (Hz : ∀ m, m ∈ Scenario.log3 → fst m ≠ (0, 0)).
  { intros m Hm. unfold Scenario.log3 in Hm.
    rewrite !elem_of_cons, elem_of_nil in Hm.
    destruct Hm as [->|[->|[->|[]]]]; discriminate. }
  split; [reflexivity|]. split; [exact Hg|]. split; [exact Hi|]. split; [exact Hz|].
  apply (fresh_subscription_skips_history Envelope.parse_raw (host Scenario.quiet)
           "conceptualize-bus" (RedisBus.mk_cursor RedisBus.Dollar 0)
           Scenario.log1 Scenario.log2 [Scenario.log3] eq_refl Hg Hi Hz).
Defined.

Lemma resumed_subscription_exact_witness :
  RedisBus.last_id (RedisBus.mk_cursor (RedisBus.At (1000, 0)) 0) = RedisBus.At (1000, 0)
  ∧ RedisBus.grows Scenario.log2 [Scenario.log3]
  ∧ Redis.increasing Scenario.log3
  ∧ RedisBus.consumed Envelope.parse_raw (host Scenario.quiet) "conceptualize-bus"
      (RedisBus.mk_cursor (RedisBus.At (1000, 0)) 0) Scenario.log2 [Scenario.log3]
    = [((1000, 1), Scenario.blank); ((1005, 0), Scenario.garbled)].
Proof.
  assert (Hg : RedisBus.grows Scenario.log2 [Scenario.log3]).
  { repeat split. by exists [((1005, 0), Scenario.garbled)]. }
  assert (Hi : Redis.increasing Scenario.log3).
  { repeat constructor. }
  split; [reflexivity|]. split; [exact Hg|]. split; [exact Hi|].
  apply (resumed_subscription_exact Envelope.parse_raw (host Scenario.quiet)
           "conceptualize-bus" (RedisBus.mk_cursor (RedisBus.At (1000, 0)) 0)
           Scenario.log2 Scenario.log3 [] [] ((1000, 0), Scenario.patrol)
           [((1000, 1), Scenario.blank); ((1005, 0), Scenario.garbled)]
           eq_refl Hg Hi eq_refl).
Defined.

(** ** Publishing and reading back *)

Section Delivery.

Import Redis RedisBus.
Local Open Scope string_scope.

(** The server numbers a new entry above the last one. *)
Lemma next_id_top ms log : id_lt (top log) (next_id ms log) = true.
Proof.
  unfold next_id. destruct (top log) as [lms lseq].
  destruct (N.ltb_spec lms ms); apply id_lt_spec; cbn [fst snd]; lia.
Qed.

Lemma next_id_above ms log m :
  increasing log → m ∈ log → id_lt (fst m) (next_id ms log) = true.
Proof.
  intros Hinc Hm. pose proof (increasing_top log m Hinc Hm) as Hle.
  pose proof (next_id_top ms log) as Hlt.
  rewrite id_lt_false in Hle. rewrite id_lt_spec in *. lia.
Qed.

Lemma increasing_snoc log x :
  increasing log → (∀ m, m ∈ log → id_lt (fst m) (fst x) = true) →
  increasing (log ++ [x]).
Proof.
  intros Hinc Hx. apply StronglySorted_app_2; [|done|repeat constructor].
  intros m y Hm ->%list_elem_of_singleton. by apply Hx.
Qed.


(** X11. Publishing appends: on a stream whose identifiers increase, the
    published entry goes to the end with an identifier above every
    identifier already there, so the stream still increases and every
    earlier state of it is a prefix of the new one; the entry has the one
    field "data", holding the envelope's serialization. *)
Theorem publish_keeps_order (self : RedisBus.t) (envelope : Envelope.t) (w : world) :
  increasing (log_of (_stream_key self) w) →
  increasing (log_of (_stream_key self) (publish self envelope w))
  ∧ log_of (_stream_key self) w `prefix_of` log_of (_stream_key self) (publish self envelope w)
  ∧ (∀ m, m ∈ log_of (_stream_key self) w →
       id_lt (fst m) (top (log_of (_stream_key self) (publish self envelope w))) = true)
  ∧ (∃ id, last (log_of (_stream_key self) (publish self envelope w))
           = Some (id, {[ "data" := Envelope.json envelope ]})).
Proof.
  intros Hinc. unfold publish. rewrite log_of_xadd.
  set (log := log_of (_stream_key self) w) in *.
  set (x := (next_id (server_ms w) log, {[ "data" := Envelope.json envelope ]})).
  split; [|split; [|split]].
  - apply increasing_snoc; [done|]. intros m Hm. by apply next_id_above.
  - by exists [x].
  - intros m Hm. rewrite top_snoc. by apply next_id_above.
  - exists (next_id (server_ms w) log). by rewrite last_snoc.
Qed.


End Delivery.

Lemma publish_keeps_order_witness :
  Redis.increasing (Redis.log_of "conceptualize-bus" Scenario.quiet)
  ∧ Redis.increasing
      (Redis.log_of "conceptualize-bus"
         (RedisBus.publish RedisBus.new Sample.request Scenario.quiet)).
Proof.
  assert (H : Redis.increasing (Redis.log_of "conceptualize-bus" Scenario.quiet)).
  { constructor. }
  split; [exact H|].
  destruct (publish_keeps_order RedisBus.new Sample.request Scenario.quiet H) as [Hinc _].
  exact Hinc.
Defined.


(** ** Agents *)

Section Agents.

Import Envelope BaseAgent.
Local Open Scope string_scope.

Variable parse_raw : Envelope.defaults → string → Envelope.t + list (string * reason).

(** X13. For a recipient that is a list, nothing but membership of the
    agent's own identifier counts: the word "broadcast" inside a list
    addresses no one (but an agent of that name). *)
Theorem list_recipient_by_membership (self : BaseAgent.t) (e : Envelope.t)
    (l : list string) :
  recipient e = RList l → (_should_handle self e = true ↔ agent_id self ∈ l).
Proof.
  intros Hr. unfold _should_handle. rewrite Hr. cbn [eq_str is_list_with orb].
  apply existsb_eqb_elem_of.
Qed.

(** X14. The dispatch boundary lets no failure that derives from
    [Exception] through: whatever it raises, the handler raised, and it does
    not derive from [Exception]; and when the handler returns normally the
    dispatch adds nothing: it returns normally in the handler's final state,
    nothing more printed. *)
Theorem safe_handle_outcomes (handle : handler) (self : BaseAgent.t)
    (envelope : Envelope.t) (w : world) :
  (∀ exc w', _safe_handle handle self envelope w = (Some exc, w') →
     is_Exception exc = false ∧ handle self envelope w = (Some exc, w'))
  ∧ (∀ w', handle self envelope w = (None, w') →
       _safe_handle handle self envelope w = (None, w')).
Proof.
  unfold _safe_handle. split.
  - intros exc w'. destruct (handle self envelope w) as [[exc0|] w0]; [|done].
    destruct (is_Exception exc0) eqn:E; [done|]. by intros [= <- <-].
  - intros w' ->. reflexivity.
Qed.

Lemma filter_none {A} (f : A → bool) l :
  (∀ x, x ∈ l → f x = false) → List.filter f l = [].
Proof.
  induction l as [|x l IH]; intros H; [done|]. simpl.
  rewrite (H x) by (apply elem_of_cons; by left).
  apply IH. intros y Hy. apply H. apply elem_of_cons. by right.
Qed.

(** The generator's events change nothing but the output. *)
Lemma on_events_world self evs : ∀ w tasks,
  broker (on_events self evs (w, tasks)).1 = broker w
  ∧ tick (on_events self evs (w, tasks)).1 = tick w
  ∧ server_ms (on_events self evs (w, tasks)).1 = server_ms w.
Proof.
  induction evs as [|ev evs IH]; intros w tasks; [done|].
  change (on_events self (ev :: evs) (w, tasks))
    with (on_events self evs (on_event self ev (w, tasks))).
  destruct ev as [e|l]; cbn [on_event].
  - destruct (_should_handle self e); apply IH.
  - destruct (IH (print l w) tasks) as (Hb & Ht & Hs). done.
Qed.

(** X15. A turn in which no envelope received is addressed to the agent
    never runs the handler: no task is created, the loop goes on, and the
    broker is as the reads left it, whatever the handler would have done. *)
Theorem unaddressed_turn_idle (handle : handler) (self : BaseAgent.t)
    (pos : RedisBus.position) (produced : list (N * gmap string string)) (w : world) :
  (∀ e, e ∈ RedisBus.yielded (receive parse_raw self pos produced w).1.2 →
     _should_handle self e = false) →
  ∃ w',
    turn parse_raw handle self pos produced w
    = (Running, RedisBus.last_id (receive parse_raw self pos produced w).1.1, [], w')
    ∧ broker w' = broker (receive parse_raw self pos produced w).2
    ∧ tick w' = tick (receive parse_raw self pos produced w).2.
Proof.
  intros Hno. unfold turn.
  destruct (receive parse_raw self pos produced w) as [[c evs] w1]. cbn [fst snd] in *.
  pose proof (on_events_tasks self evs w1 []) as Ht.
  rewrite (filter_none _ _ Hno) in Ht.
  destruct (on_events_world self evs w1 []) as (Hb & Hk & _).
  destruct (on_events self evs (w1, [])) as [w2 tasks]. cbn [fst snd app] in *.
  subst tasks. cbn [run_tasks]. by exists w2.
Qed.





End Agents.

Lemma list_recipient_by_membership_witness :
  Envelope.recipient
    (Envelope.with_recipient (Envelope.RList ["broadcast"; "sergeant"]%string) Sample.request)
  = Envelope.RList ["broadcast"; "sergeant"]%string
  ∧ (BaseAgent._should_handle CaptainAgent.captain
       (Envelope.with_recipient (Envelope.RList ["broadcast"; "sergeant"]%string)
          Sample.request) = true
     ↔ BaseAgent.agent_id CaptainAgent.captain ∈ ["broadcast"; "sergeant"]%string).
Proof.
  split; [reflexivity|].
  apply (list_recipient_by_membership CaptainAgent.captain
           (Envelope.with_recipient (Envelope.RList ["broadcast"; "sergeant"]%string)
              Sample.request)).
  reflexivity.
Defined.

Lemma unaddressed_turn_idle_witness :
  (∀ e,
     e ∈ RedisBus.yielded
           (BaseAgent.receive Envelope.parse_raw CaptainAgent.captain RedisBus.Dollar
              [(1000, Scenario.elsewhere)] Scenario.quiet).1.2 →
     BaseAgent._should_handle CaptainAgent.captain e = false)
  ∧ (BaseAgent.turn Envelope.parse_raw Scenario.quitter CaptainAgent.captain
       RedisBus.Dollar [(1000, Scenario.elsewhere)] Scenario.quiet).1.1.1
    = BaseAgent.Running.
Proof.
  assert (H : ∀ e,
     e ∈ RedisBus.yielded
           (BaseAgent.receive Envelope.parse_raw CaptainAgent.captain RedisBus.Dollar
              [(1000, Scenario.elsewhere)] Scenario.quiet).1.2 →
     BaseAgent._should_handle CaptainAgent.captain e = false).
  { intros e He.
    assert (Hy : RedisBus.yielded
           (BaseAgent.receive Envelope.parse_raw CaptainAgent.captain RedisBus.Dollar
              [(1000, Scenario.elsewhere)] Scenario.quiet).1.2
           = [Envelope.with_recipient (Envelope.RStr "sergeant") Sample.request])
      by (vm_compute; reflexivity).
    rewrite Hy in He. apply list_elem_of_singleton in He. subst e. reflexivity. }
  split; [exact H|].
  destruct (unaddressed_turn_idle Envelope.parse_raw Scenario.quitter CaptainAgent.captain
              RedisBus.Dollar [(1000, Scenario.elsewhere)] Scenario.quiet H)
    as (w' & Hturn & _).
  rewrite Hturn. reflexivity.
Defined.


(** ** The Captain's acknowledgement *)

Section Acknowledgement.

Import Envelope BaseAgent.
Local Open Scope string_scope.










End Acknowledgement.




(** ** Order of dispatch *)

Section Batches.

Import Envelope BaseAgent.
Local Open Scope string_scope.





End Batches.

